(** * gobuild: version derivation from git history and archive assembly

    A shallow embedding of [git.go] (GitDescribe, GetSemver, ListEntries,
    getVersionTags, describe) and of the archive builder (NewGitArchive,
    Create, createTgzArchive, createZipArchive, addEntryToTar,
    addEntryToZip), with the properties of the specification stated over
    it.

    Go values are modelled as follows.
    - [uint64], [uint8]: [Z], every increment reduced modulo the width.
    - [string]: [string], read as a sequence of bytes; comparison of two
      strings is bytewise lexicographic, as in Go.
    - [error]: the inductive [error]; [nil] is [None] of [option error].
    - [map[plumbing.Hash]*object.Tag]: [gmap Hash Tag].
    - a function returning [(T, error)] with a zero [T] on failure:
      [error + T]; where Go returns both parts the model keeps a pair.
    - package-level variables: the record [Globals], passed explicitly.
    - writers and the output sink: a trace of the operations performed on
      them, in order. *)

From Stdlib Require Import ZArith NArith List String Ascii Lia DecimalString.
From stdpp Require Import base option list gmap strings.

Local Open Scope Z_scope.

(** ** Go runtime *)

(** Values of Go's [error] interface. [fmt.Errorf] is kept as its format
    and operands; the sentinels that the code compares by identity are
    constructors of their own. *)
Inductive error : Type :=
| errorString (text : string)
| Errorf (format : string) (operands : list operand)
| NumError (func num : string) (err : error)
| ErrSyntax
| ErrRange
| ErrStop
| EOF
| ErrObjectNotFound
with operand : Type :=
| opString (s : string)
| opError (e : error)
| opUint (n : Z).

(** A call either returns or panics. *)
Inductive go (A : Type) : Type :=
| Returned (a : A)
| Panicked (reason : string).
Arguments Returned {A} a.
Arguments Panicked {A} reason.

Definition maxUint64 : Z := 18446744073709551615.

(** Arithmetic on [uint64] wraps around. *)
Definition wrap64 (x : Z) : Z := x mod 2 ^ 64.

(** [s[i:]]: out of range when [i > len(s)]. *)
Fixpoint slice_from (s : string) (i : nat) : option string :=
  match i, s with
  | O, _ => Some s
  | S _, EmptyString => None
  | S i', String _ s' => slice_from s' i'
  end.

(** The verb [%d] applied to an unsigned integer. *)
Definition fmtUint (n : Z) : string :=
  NilZero.string_of_uint (N.to_uint (Z.to_N n)).

(** ** github.com/blang/semver

    The part of the library that [git.go] calls, and the comparison of
    versions that the library offers to its callers. *)
Module semver.

Definition numbers : string := "0123456789".
Definition alphas : string :=
  "abcdefghijklmnopqrstuvwxyzABCDEFGHIJKLMNOPQRSTUVWXYZ-".
Definition alphanum : string := alphas +:+ numbers.

Record PRVersion : Type := mkPRVersion {
  VersionStr : string;
  VersionNum : Z;
  IsNum : bool
}.

Record Version : Type := mkVersion {
  Major : Z;
  Minor : Z;
  Patch : Z;
  Pre : list PRVersion;
  Build : list string
}.

(** [Version{}] *)
Definition zeroVersion : Version := mkVersion 0 0 0 [] [].

Fixpoint ContainsRune (set : string) (r : ascii) : bool :=
  match set with
  | EmptyString => false
  | String c set' => if Ascii.eqb c r then true else ContainsRune set' r
  end.

(** Every byte of [s] belongs to [set]. The sets are ASCII, and no byte
    of a multi-byte rune is ASCII, so the test by bytes and the test by
    runes agree. *)
Fixpoint containsOnly (s set : string) : bool :=
  match s with
  | EmptyString => true
  | String c s' => ContainsRune set c && containsOnly s' set
  end.

Definition hasLeadingZeroes (s : string) : bool :=
  match s with
  | String c (String _ _) => Ascii.eqb c "0"
  | _ => false
  end.

(** [s] cut at the first occurrence of the byte [sep]. *)
Fixpoint cut (sep : ascii) (s : string) : option (string * string) :=
  match s with
  | EmptyString => None
  | String c s' =>
      if Ascii.eqb c sep then Some (EmptyString, s')
      else match cut sep s' with
           | Some (a, b) => Some (String c a, b)
           | None => None
           end
  end.

(** [strings.SplitN(s, sep, n)] for a one-byte separator and [n >= 0]. *)
Fixpoint SplitN (s : string) (sep : ascii) (n : nat) : list string :=
  match n with
  | O => []
  | S O => [s]
  | S n' =>
      match cut sep s with
      | Some (a, b) => a :: SplitN b sep n'
      | None => [s]
      end
  end.

(** [strings.Split(s, sep)] for a one-byte separator. *)
Fixpoint Split (s : string) (sep : ascii) : list string :=
  match s with
  | EmptyString => [EmptyString]
  | String c s' =>
      if Ascii.eqb c sep then EmptyString :: Split s' sep
      else match Split s' sep with
           | h :: t => String c h :: t
           | [] => [String c EmptyString]
           end
  end.

Definition digit (c : ascii) : option Z :=
  let k := Z.of_N (N_of_ascii c) in
  if (48 <=? k) && (k <=? 57) then Some (k - 48) else None.

Fixpoint parseDigits (s : string) (acc : Z) : error + Z :=
  match s with
  | EmptyString => inr acc
  | String c s' =>
      match digit c with
      | None => inl ErrSyntax
      | Some d =>
          let acc' := acc * 10 + d in
          if acc' >? maxUint64 then inl ErrRange
          else parseDigits s' acc'
      end
  end.

(** [strconv.ParseUint(s, 10, 64)] *)
Definition ParseUint (s : string) : error + Z :=
  match s with
  | EmptyString => inl (NumError "ParseUint" s ErrSyntax)
  | _ =>
      match parseDigits s 0 with
      | inr n => inr n
      | inl e => inl (NumError "ParseUint" s e)
      end
  end.

(** Major, minor and patch are read by the same three steps, each with
    its own messages. *)
Definition parseNumber (invalid leading s : string) : error + Z :=
  if negb (containsOnly s numbers) then inl (Errorf invalid [opString s])
  else if hasLeadingZeroes s then inl (Errorf leading [opString s])
  else ParseUint s.

Definition NewPRVersion (s : string) : error + PRVersion :=
  match s with
  | EmptyString => inl (errorString "Prerelease is empty")
  | _ =>
      if containsOnly s numbers then
        if hasLeadingZeroes s then
          inl (Errorf
                 "Numeric PreRelease version must not contain leading zeroes %q"
                 [opString s])
        else
          match ParseUint s with
          | inl e => inl e
          | inr num => inr (mkPRVersion EmptyString num true)
          end
      else if containsOnly s alphanum then
        inr (mkPRVersion s 0 false)
      else
        inl (Errorf "Invalid character(s) found in prerelease %q"
                    [opString s])
  end.

Fixpoint parsePre (l : list string) : error + list PRVersion :=
  match l with
  | [] => inr []
  | prstr :: l' =>
      match NewPRVersion prstr with
      | inl e => inl e
      | inr parsedPR =>
          match parsePre l' with
          | inl e => inl e
          | inr rest => inr (parsedPR :: rest)
          end
      end
  end.

Fixpoint parseBuild (l : list string) : error + list string :=
  match l with
  | [] => inr []
  | str :: l' =>
      match str with
      | EmptyString => inl (errorString "Build meta data is empty")
      | _ =>
          if negb (containsOnly str alphanum) then
            inl (Errorf "Invalid character(s) found in build meta data %q"
                        [opString str])
          else
            match parseBuild l' with
            | inl e => inl e
            | inr rest => inr (str :: rest)
            end
      end
  end.

(** [semver.Parse] *)
Definition Parse (s : string) : error + Version :=
  match s with
  | EmptyString => inl (errorString "Version string empty")
  | _ =>
      match SplitN s "." 3 with
      | [p0; p1; p2] =>
          match parseNumber
                  "Invalid character(s) found in major number %q"
                  "Major number must not contain leading zeroes %q" p0 with
          | inl e => inl e
          | inr major =>
          match parseNumber
                  "Invalid character(s) found in minor number %q"
                  "Minor number must not contain leading zeroes %q" p1 with
          | inl e => inl e
          | inr minor =>
              let '(patchStr, build) :=
                match cut "+" p2 with
                | Some (a, b) => (a, Split b ".")
                | None => (p2, [])
                end in
              let '(patchStr, prerelease) :=
                match cut "-" patchStr with
                | Some (a, b) => (a, Split b ".")
                | None => (patchStr, [])
                end in
              match parseNumber
                      "Invalid character(s) found in patch number %q"
                      "Patch number must not contain leading zeroes %q"
                      patchStr with
              | inl e => inl e
              | inr patch =>
              match parsePre prerelease with
              | inl e => inl e
              | inr pre =>
              match parseBuild build with
              | inl e => inl e
              | inr bld => inr (mkVersion major minor patch pre bld)
              end end end
          end end
      | _ => inl (errorString "No Major.Minor.Patch elements found")
      end
  end.

(** [PRVersion.Compare]: -1, 0 or 1. Two non-numeric identifiers are
    compared as strings. *)
Definition PRCompare (v o : PRVersion) : Z :=
  if IsNum v && negb (IsNum o) then -1
  else if negb (IsNum v) && IsNum o then 1
  else if IsNum v && IsNum o then
    if VersionNum v =? VersionNum o then 0
    else if VersionNum v >? VersionNum o then 1
    else -1
  else
    match String.compare (VersionStr v) (VersionStr o) with
    | Eq => 0
    | Gt => 1
    | Lt => -1
    end.

(** The loop of [Version.Compare] over the two pre-release lists, and
    the test on the lengths that follows it. *)
Fixpoint comparePre (v o : list PRVersion) : Z :=
  match v, o with
  | [], [] => 0
  | [], _ :: _ => -1
  | _ :: _, [] => 1
  | x :: v', y :: o' =>
      let comp := PRCompare x y in
      if comp =? 0 then comparePre v' o'
      else if comp =? 1 then 1
      else -1
  end.

(** [Version.Compare]: -1 when [v] is less than [o], 0 when equal, 1 when
    greater. Build metadata takes no part. *)
Definition Compare (v o : Version) : Z :=
  if negb (Major v =? Major o) then
    if Major v >? Major o then 1 else -1
  else if negb (Minor v =? Minor o) then
    if Minor v >? Minor o then 1 else -1
  else if negb (Patch v =? Patch o) then
    if Patch v >? Patch o then 1 else -1
  else
    match Pre v, Pre o with
    | [], [] => 0
    | [], _ :: _ => 1
    | _ :: _, [] => -1
    | _ :: _, _ :: _ => comparePre (Pre v) (Pre o)
    end.

(** [Version.LT] *)
Definition LT (v o : Version) : bool := Compare v o =? -1.

(** [PRVersion.String] *)
Definition PRString (v : PRVersion) : string :=
  if IsNum v then fmtUint (VersionNum v) else VersionStr v.

Fixpoint joinDots (l : list string) : string :=
  match l with
  | [] => EmptyString
  | [x] => x
  | x :: l' => x +:+ "." +:+ joinDots l'
  end.

(** [Version.String] *)
Definition VString (v : Version) : string :=
  fmtUint (Major v) +:+ "." +:+ fmtUint (Minor v) +:+ "." +:+
  fmtUint (Patch v) +:+
  match Pre v with
  | [] => EmptyString
  | _ => "-" +:+ joinDots (map PRString (Pre v))
  end +:+
  match Build v with
  | [] => EmptyString
  | _ => "+" +:+ joinDots (Build v)
  end.

End semver.

(** ** github.com/go-git/go-git

    The repository as [git.go] sees it: the results of the calls it
    makes. *)
Module plumbing.

(** [plumbing.Hash], twenty bytes read as one number. *)
Definition Hash : Type := N.

(** A reference, by what the code reads from it: [ref.Name().Short()] and
    [ref.Hash()]. *)
Record Reference : Type := mkReference {
  Short : string;
  RefHash : Hash
}.

End plumbing.

Module object.

(** An annotated tag object. [Tree] stands for [tag.Tree()] followed by
    a recursive walk of the tree: the names the walker yields before its
    first error, the end of the tree included. *)
Record Tag : Type := mkTag {
  Name : string;
  Target : plumbing.Hash;
  Tree : error + list string
}.

Record Commit : Type := mkCommit {
  Hash : plumbing.Hash
}.

End object.

Module storer.

(** An iterator, by the items [Next] yields and by how it ends: [None]
    for [io.EOF], [Some err] for any other error. *)
Record Iter (A : Type) : Type := mkIter {
  yielded : list A;
  final : option error
}.
Arguments mkIter {A} yielded final.
Arguments yielded {A} i.
Arguments final {A} i.

(** The loop of [ForEach] with the state the callback works on passed
    along. A callback that returns [ErrStop] ends the loop without error,
    any other error ends it with that error. *)
Fixpoint forEach {A S : Type} (cb : A -> S -> option error * S)
    (items : list A) (fin : option error) (s : S) : option error * S :=
  match items with
  | [] => (match fin with Some EOF => None | _ => fin end, s)
  | x :: items' =>
      match cb x s with
      | (None, s') => forEach cb items' fin s'
      | (Some ErrStop, s') => (None, s')
      | (Some err, s') => (Some err, s')
      end
  end.

Definition ForEach {A S : Type} (it : Iter A)
    (cb : A -> S -> option error * S) (s : S) : option error * S :=
  forEach cb (yielded it) (final it) s.

End storer.

Module git.

Inductive LogOrder : Type :=
| LogOrderDefault
| LogOrderDFS
| LogOrderDFSPost
| LogOrderBSF
| LogOrderCommitterTime.

Record LogOptions : Type := mkLogOptions {
  Order : LogOrder;
  From : plumbing.Hash
}.

(** [w.Status()], kept as the answer of [status.IsClean()]. *)
Record Worktree : Type := mkWorktree {
  Status : error + bool
}.

Record Repository : Type := mkRepository {
  Head : error + plumbing.Reference;
  GetWorktree : error + Worktree;
  Tags : error + storer.Iter plumbing.Reference;
  TagObject : plumbing.Hash -> error + object.Tag;
  Log : LogOptions -> error + storer.Iter object.Commit
}.

End git.

(** ** git.go *)

Record GitDescription : Type := mkGitDescription {
  isClean : bool;
  ref : plumbing.Reference;
  tag : option object.Tag;
  n : Z
}.

(** The package-level variables. [runs] is a ghost counter: how many
    times the function given to [onceGitDescribe.Do] has been run. *)
Record Globals : Type := mkGlobals {
  onceGitDescribe : bool;
  cachedGitDescription : option GitDescription;
  cachedGitDescriptionError : option error;
  runs : nat
}.

(** The variables when the process starts. *)
Definition startGlobals : Globals := mkGlobals false None None 0.

(** What the process finds around it at the moment of a call:
    [git.PlainOpen]. *)
Record Process : Type := mkProcess {
  PlainOpen : string -> error + git.Repository
}.

(** [gd.GetSemver()]. Slicing an empty tag name panics. *)
Definition GetSemver (gd : GitDescription) : go (error + semver.Version) :=
  match tag gd with
  | None => Returned (inl (errorString "no semver tags found"))
  | Some t =>
      match slice_from (object.Name t) 1 with
      | None => Panicked "slice bounds out of range"
      | Some s =>
          match semver.Parse s with
          | inl err => Returned (inl err)
          | inr v =>
              if n gd >? 0 then
                let v :=
                  match semver.Pre v with
                  | [] =>
                      let patch := wrap64 (semver.Patch v + 1) in
                      semver.mkVersion (semver.Major v) (semver.Minor v) patch
                        (semver.Pre v ++
                         [semver.mkPRVersion ("alpha." +:+ fmtUint patch)
                                             0 false])
                        (semver.Build v)
                  | _ :: _ => v
                  end in
                Returned (inr
                  (semver.mkVersion (semver.Major v) (semver.Minor v)
                     (semver.Patch v)
                     (semver.Pre v ++
                      [semver.mkPRVersion ("devel." +:+ fmtUint (n gd))
                                          0 false])
                     (semver.Build v)))
              else Returned (inr v)
          end
      end
  end.

(** [gd.ListEntries()] *)
Definition ListEntries (gd : GitDescription) : list string :=
  match tag gd with
  | None => []
  | Some t =>
      match object.Tree t with
      | inl _ => []
      | inr entries => entries
      end
  end.

(** The function given to [tagIter.ForEach]. *)
Definition selectTag (r : git.Repository) (ref : plumbing.Reference)
    (tags : gmap plumbing.Hash object.Tag)
    : option error * gmap plumbing.Hash object.Tag :=
  match plumbing.Short ref with
  | EmptyString => (None, tags)
  | String _ rest =>
      match semver.Parse rest with
      | inr _ =>
          match git.TagObject r (plumbing.RefHash ref) with
          | inl err => (Some err, tags)
          | inr t => (None, <[object.Target t := t]> tags)
          end
      | inl _ => (None, tags)
      end
  end.

(** [getVersionTags(r)]. Go returns the map and the error together; the
    nil map of the first exit is the empty map here. *)
Definition getVersionTags (r : git.Repository)
    : gmap plumbing.Hash object.Tag * option error :=
  match git.Tags r with
  | inl err => (∅, Some err)
  | inr tagIter =>
      let '(err, tags) := storer.ForEach tagIter (selectTag r) ∅ in
      (tags, err)
  end.

(** The function given to [logIter.ForEach]. *)
Definition visit (tags : gmap plumbing.Hash object.Tag) (c : object.Commit)
    (gd : GitDescription) : option error * GitDescription :=
  match tags !! object.Hash c with
  | Some t =>
      (Some ErrStop,
       mkGitDescription (isClean gd) (ref gd) (Some t) (n gd))
  | None =>
      (None,
       mkGitDescription (isClean gd) (ref gd) (tag gd) (wrap64 (n gd + 1)))
  end.

(** [describe(r, ref)] *)
Definition describe (r : git.Repository) (ref : plumbing.Reference)
    : error + GitDescription :=
  match git.GetWorktree r with
  | inl err => inl (Errorf "worktree: %s" [opError err])
  | inr w =>
  match git.Status w with
  | inl err => inl (Errorf "worktree status: %s" [opError err])
  | inr clean =>
  match getVersionTags r with
  | (_, Some err) => inl (Errorf "version tag: %s" [opError err])
  | (tags, None) =>
  match git.Log r (git.mkLogOptions git.LogOrderCommitterTime
                                    (plumbing.RefHash ref)) with
  | inl err => inl err
  | inr logIter =>
      let gd := mkGitDescription clean ref None 0 in
      match storer.ForEach logIter (visit tags) gd with
      | (Some err, _) => inl err
      | (None, gd) => inr gd
      end
  end end end end.

(** The function given to [onceGitDescribe.Do]: it assigns the two cached
    variables. *)
Definition computeDescription (p : Process) (g : Globals) : Globals :=
  let g := mkGlobals (onceGitDescribe g) (cachedGitDescription g)
                     (cachedGitDescriptionError g) (S (runs g)) in
  match PlainOpen p "." with
  | inl err =>
      mkGlobals (onceGitDescribe g) (cachedGitDescription g) (Some err) (runs g)
  | inr repo =>
      match git.Head repo with
      | inl err =>
          mkGlobals (onceGitDescribe g) (cachedGitDescription g) (Some err)
                    (runs g)
      | inr head =>
          match describe repo head with
          | inl err => mkGlobals (onceGitDescribe g) None (Some err) (runs g)
          | inr gd => mkGlobals (onceGitDescribe g) (Some gd) None (runs g)
          end
      end
  end.

(** [sync.Once.Do]: the function runs unless an earlier call has run
    one. *)
Definition Do (f : Globals -> Globals) (g : Globals) : Globals :=
  if onceGitDescribe g then g
  else
    let g' := f g in
    mkGlobals true (cachedGitDescription g') (cachedGitDescriptionError g')
              (runs g').

(** [GitDescribe()] *)
Definition GitDescribe (p : Process) (g : Globals)
    : (option GitDescription * option error) * Globals :=
  let g' := Do (computeDescription p) g in
  ((cachedGitDescription g', cachedGitDescriptionError g'), g').

(** ** The archive builder *)

(** [os.FileInfo], by the three tests the code makes on it:
    [fi.Mode()&os.ModeSymlink != 0], [fi.IsDir()] and
    [fi.Mode().IsRegular()]. *)
Record FileInfo : Type := mkFileInfo {
  IsSymlink : bool;
  IsDir : bool;
  IsRegular : bool
}.

(** An open file: the bytes a reader gets, and the error that ends the
    reading if there is one. *)
Record File : Type := mkFile {
  contents : string;
  readError : option error
}.

Record tarHeader : Type := mkTarHeader {
  tarName : string;
  Linkname : string
}.

Record zipHeader : Type := mkZipHeader {
  zipName : string;
  Method : Z
}.

(** [zip.Deflate] *)
Definition Deflate : Z := 8.

(** The operations on the writers that stand between the builder and the
    output sink. Bytes reach the sink only through them. *)
Inductive Event : Type :=
| TarWriteHeader (h : tarHeader)
| TarWrite (data : string)
| TarClose
| GzipClose
| ZipCreateHeader (h : zipHeader)
| ZipWrite (data : string)
| ZipClose.

(** The file system and the libraries under the builder. [fault] tells
    whether an operation on a writer fails, given what was done before
    it. *)
Record OS : Type := mkOS {
  Stat : string -> error + FileInfo;
  Readlink : string -> error + string;
  Open : string -> error + File;
  Join : string -> string -> string;
  tarFileInfoHeader : FileInfo -> string -> error + tarHeader;
  zipFileInfoHeader : FileInfo -> error + zipHeader;
  fault : list Event -> Event -> option error
}.

(** A computation that works on the writers: from the operations done so
    far to a result and the operations done after it. *)
Definition IO (A : Type) : Type := list Event -> A * list Event.

Definition ret {A : Type} (a : A) : IO A := fun tr => (a, tr).

Definition bind {A B : Type} (c : IO A) (k : A -> IO B) : IO B :=
  fun tr => let '(a, tr') := c tr in k a tr'.

Notation "x <~ c ;; k" := (bind c (fun x => k))
  (at level 100, c at next level, right associativity).

(** One operation on a writer. *)
Definition perform (os : OS) (e : Event) : IO (option error) :=
  fun tr => (fault os tr e, tr ++ [e]).

(** [io.Copy(w, file)], the write being [wr]. *)
Definition Copy (os : OS) (wr : string -> Event) (file : File)
    : IO (option error) :=
  err <~ perform os (wr (contents file)) ;;
  match err with
  | Some err => ret (Some err)
  | None => ret (readError file)
  end.

Definition ArchiveFormat : Type := Z.
Definition TgzArchive : ArchiveFormat := 0.
Definition ZipArchive : ArchiveFormat := 1.

Record GitArchive : Type := mkGitArchive {
  gd : GitDescription;
  prefix : string
}.

(** [NewGitArchive(prefix)]. Reading [ga.gd.tag] through a nil pointer
    panics. *)
Definition NewGitArchive (prefix : string) (p : Process) (g : Globals)
    : go (error + GitArchive) * Globals :=
  match GitDescribe p g with
  | ((_, Some err), g') => (Returned (inl err), g')
  | ((None, None), g') => (Panicked "nil pointer dereference", g')
  | ((Some gd, None), g') =>
      match tag gd with
      | None =>
          (Returned (inl (Errorf "no tag found to create archive from" [])),
           g')
      | Some t =>
          if n gd >? 0 then
            let tagName := object.Name t in
            (Returned (inl (Errorf "tag %s must also be HEAD"
                                   [opString tagName])), g')
          else (Returned (inr (mkGitArchive gd prefix)), g')
      end
  end.

(** [addEntryToTar(prefix, path, w)] *)
Definition addEntryToTar (os : OS) (prefix path : string)
    : IO (option error) :=
  match Stat os path with
  | inl err =>
      ret (Some (Errorf "while getting information for file %s: %s"
                        [opString path; opError err]))
  | inr fi =>
  match (if IsSymlink fi then Readlink os path else inr EmptyString) with
  | inl err =>
      ret (Some (Errorf "while reading symlink %s: %s"
                        [opString path; opError err]))
  | inr link =>
  match tarFileInfoHeader os fi link with
  | inl err =>
      ret (Some (Errorf "while getting tar header for file %s: %s"
                        [opString path; opError err]))
  | inr header =>
      let name := Join os prefix path in
      let name := if IsDir fi then name +:+ "/" else name in
      err <~ perform os (TarWriteHeader (mkTarHeader name (Linkname header))) ;;
      match err with
      | Some err =>
          ret (Some (Errorf "while writing tar header for file %s: %s"
                            [opString path; opError err]))
      | None =>
          if IsRegular fi then
            match Open os path with
            | inl err =>
                ret (Some (Errorf "while opening file %s: %s"
                                  [opString path; opError err]))
            | inr file =>
                err <~ Copy os TarWrite file ;;
                match err with
                | Some err =>
                    ret (Some (Errorf "while copying file %s to tar: %s"
                                      [opString path; opError err]))
                | None => ret None
                end
            end
          else ret None
      end
  end end end.

(** [addEntryToZip(prefix, path, w)] *)
Definition addEntryToZip (os : OS) (prefix path : string)
    : IO (option error) :=
  match Stat os path with
  | inl err =>
      ret (Some (Errorf "while getting information for file %s: %s"
                        [opString path; opError err]))
  | inr fi =>
  match zipFileInfoHeader os fi with
  | inl err =>
      ret (Some (Errorf "while getting zip information header for file %s: %s"
                        [opString path; opError err]))
  | inr _ =>
      let name := Join os prefix path in
      let name := if IsDir fi then name +:+ "/" else name in
      err <~ perform os (ZipCreateHeader (mkZipHeader name Deflate)) ;;
      match err with
      | Some err =>
          ret (Some (Errorf "while create zip file %s: %s"
                            [opString path; opError err]))
      | None =>
          if IsRegular fi then
            match Open os path with
            | inl err =>
                ret (Some (Errorf "while opening file %s: %s"
                                  [opString path; opError err]))
            | inr file =>
                err <~ Copy os ZipWrite file ;;
                match err with
                | Some err =>
                    ret (Some (Errorf
                                 "while copying file %s to zip archive: %s"
                                 [opString path; opError err]))
                | None => ret None
                end
            end
          else
            match (if IsSymlink fi then Readlink os path
                   else inr EmptyString) with
            | inl err =>
                ret (Some (Errorf "while reading symlink %s: %s"
                                  [opString path; opError err]))
            | inr data =>
                err <~ perform os (ZipWrite data) ;;
                match err with
                | Some err =>
                    ret (Some (Errorf
                                 "while copying file %s to zip archive: %s"
                                 [opString path; opError err]))
                | None => ret None
                end
            end
      end
  end end.

(** The loop over the entries, shared by the two formats: the first
    entry that fails ends it with the error wrapped by [format]. *)
Fixpoint addEntries (add : string -> IO (option error)) (format : string)
    (entries : list string) : IO (option error) :=
  match entries with
  | [] => ret None
  | entry :: entries' =>
      err <~ add entry ;;
      match err with
      | Some err =>
          ret (Some (Errorf format [opString entry; opError err]))
      | None => addEntries add format entries'
      end
  end.

(** [ga.createTgzArchive(w, extraFiles...)]. The two deferred calls run
    when the function returns, the one deferred last first; what they
    return is dropped. *)
Definition createTgzArchive (os : OS) (ga : GitArchive)
    (extraFiles : list string) : IO (option error) :=
  result <~ addEntries (addEntryToTar os (prefix ga))
              "while adding file %s to tar archive: %s"
              (ListEntries (gd ga) ++ extraFiles) ;;
  _ <~ perform os TarClose ;;
  _ <~ perform os GzipClose ;;
  ret result.

(** [ga.createZipArchive(w, extraFiles...)] *)
Definition createZipArchive (os : OS) (ga : GitArchive)
    (extraFiles : list string) : IO (option error) :=
  result <~ addEntries (addEntryToZip os (prefix ga))
              "while adding file %s to zip archive: %s"
              (ListEntries (gd ga) ++ extraFiles) ;;
  match result with
  | Some err => ret (Some err)
  | None => perform os ZipClose
  end.

(** [ga.Create(format, w, extraFiles...)]: a switch with two cases and
    no default. *)
Definition Create (os : OS) (ga : GitArchive) (format : ArchiveFormat)
    (extraFiles : list string) : IO (option error) :=
  if format =? TgzArchive then createTgzArchive os ga extraFiles
  else if format =? ZipArchive then createZipArchive os ga extraFiles
  else ret None.

(** * Vocabulary of the properties *)

(** ** The semver synthesizer *)

(** The version GetSemver builds for [gd] past a tag without pre-release
    part that parses as [v], the patch number being [patch]. *)
Definition nextPatch (gd : GitDescription) (v : semver.Version) (patch : Z)
    : semver.Version :=
  semver.mkVersion (semver.Major v) (semver.Minor v) patch
    [semver.mkPRVersion ("alpha." +:+ fmtUint patch) 0 false;
     semver.mkPRVersion ("devel." +:+ fmtUint (n gd)) 0 false]
    (semver.Build v).

(** The sentence of the specification read on the integers: the patch
    number is the tag's plus one. *)
Definition patch_plus_one (gd : GitDescription) : Prop :=
  forall t s v,
    tag gd = Some t -> slice_from (object.Name t) 1 = Some s ->
    semver.Parse s = inr v -> semver.Pre v = [] -> n gd > 0 ->
    GetSemver gd = Returned (inr (nextPatch gd v (semver.Patch v + 1))).

(** ** The tag selector *)

(** The short name of [ref], its first byte dropped, parses as a
    semantic version. *)
Definition semverNamed (ref : plumbing.Reference) : bool :=
  match plumbing.Short ref with
  | EmptyString => false
  | String _ rest =>
      match semver.Parse rest with
      | inr _ => true
      | inl _ => false
      end
  end.

(** The map after the references [refs], when no lookup fails. *)
Definition selected (r : git.Repository) (refs : list plumbing.Reference)
    (tags : gmap plumbing.Hash object.Tag) : gmap plumbing.Hash object.Tag :=
  foldl (fun tags ref =>
           if semverNamed ref then
             match git.TagObject r (plumbing.RefHash ref) with
             | inr t => <[object.Target t := t]> tags
             | inl _ => tags
             end
           else tags) tags refs.

(** Every semver-named reference of [refs] resolves to a tag object. *)
Definition resolvable (r : git.Repository) (refs : list plumbing.Reference)
    : Prop :=
  forall ref, ref ∈ refs -> semverNamed ref = true ->
    exists t, git.TagObject r (plumbing.RefHash ref) = inr t.

(** The sentence of the specification: whatever the references are, tag
    selection returns no error. *)
Definition selection_succeeds (r : git.Repository) : Prop :=
  forall refs, git.Tags r = inr (storer.mkIter refs None) ->
    snd (getVersionTags r) = None.

(** Every entry of the map is a tag under its own target. *)
Definition keyedByTarget (tags : gmap plumbing.Hash object.Tag) : Prop :=
  forall h t, tags !! h = Some t -> object.Target t = h.

(** ** The history walker and the describer *)

(** No commit of [cs] is a key of the map. *)
Definition untagged (tags : gmap plumbing.Hash object.Tag)
    (cs : list object.Commit) : Prop :=
  forall c, c ∈ cs -> tags !! object.Hash c = None.

(** The options [describe] gives to [r.Log]: committer-time order, from
    the hash of the reference. *)
Definition logOptions (ref : plumbing.Reference) : git.LogOptions :=
  git.mkLogOptions git.LogOrderCommitterTime (plumbing.RefHash ref).

(** Calls of GitDescribe one after the other, each with what the process
    finds around it at that moment. *)
Fixpoint calls (ps : list Process) (g : Globals)
    : list (option GitDescription * option error) * Globals :=
  match ps with
  | [] => ([], g)
  | p :: ps' =>
      let '(result, g') := GitDescribe p g in
      let '(results, g'') := calls ps' g' in
      (result :: results, g'')
  end.

(** ** The writers *)

(** A computation that only adds operations satisfying [P] to the ones
    done before it. *)
Definition adds {A : Type} (P : Event -> Prop) (c : IO A) : Prop :=
  forall tr, exists mid, snd (c tr) = tr ++ mid /\ Forall P mid.

(** The operations that write an entry: everything but the three
    closes. *)
Definition entryEvent (e : Event) : Prop :=
  match e with
  | TarClose | GzipClose | ZipClose => False
  | _ => True
  end.

(** ** Data of the examples *)

(** A branch head on the commit 13 and a reference on the commit 11. *)
Definition masterRef : plumbing.Reference :=
  plumbing.mkReference "master" 13%N.

Definition releaseRef : plumbing.Reference :=
  plumbing.mkReference "release" 11%N.

(** An annotated tag on the commit 11, with three entries in its
    tree. *)
Definition tagNamed (name : string) : object.Tag :=
  object.mkTag name 11%N (inr ["a.txt"; "dir"; "dir/b.txt"]).

(** A description [k] commits past the tag [name]. *)
Definition past (name : string) (k : Z) : GitDescription :=
  mkGitDescription true masterRef (Some (tagNamed name)) k.

(** A repository with the commits 10, 11, 12 and 13, each the parent of
    the next, one annotated tag v1.2.3 on the commit 11, a tag whose
    name is no version, and a branch head on the commit 13. *)
Definition taggedRepo : git.Repository :=
  git.mkRepository
    (inr masterRef)
    (inr (git.mkWorktree (inr true)))
    (inr (storer.mkIter
            [plumbing.mkReference "v1.2.3" 21%N;
             plumbing.mkReference "not-a-version" 12%N] None))
    (fun h => if (h =? 21)%N then inr (tagNamed "v1.2.3")
              else inl ErrObjectNotFound)
    (fun o =>
       inr (storer.mkIter
              (map object.mkCommit
                 (List.filter (fun h => (h <=? git.From o)%N)
                    [13%N; 12%N; 11%N; 10%N])) None)).

(** The same repository with one more tag, v2.0.0, lightweight: its
    reference holds the hash of the commit 13, and no tag object has
    that hash. *)
Definition lightweightRepo : git.Repository :=
  git.mkRepository
    (git.Head taggedRepo)
    (git.GetWorktree taggedRepo)
    (inr (storer.mkIter
            [plumbing.mkReference "v1.2.3" 21%N;
             plumbing.mkReference "v2.0.0" 13%N] None))
    (git.TagObject taggedRepo)
    (git.Log taggedRepo).

(** A working directory with the files of the tag, [dir] being a
    directory, and nothing named [missing]; no operation on a writer
    fails. *)
Definition workdir : OS :=
  mkOS
    (fun path =>
       if String.eqb path "missing" then
         inl (errorString "stat missing: no such file or directory")
       else if String.eqb path "dir" then inr (mkFileInfo false true false)
       else inr (mkFileInfo false false true))
    (fun path => inl (errorString "invalid argument"))
    (fun path => inr (mkFile ("contents of " +:+ path) None))
    (fun prefix path => prefix +:+ "/" +:+ path)
    (fun fi link => inr (mkTarHeader EmptyString link))
    (fun fi => inr (mkZipHeader EmptyString 0))
    (fun tr e => None).

(** The builder for the tag v1.2.3 at HEAD. *)
Definition release : GitArchive := mkGitArchive (past "v1.2.3" 0) "proj-1.0".

(** ** github.com/goreleaser/nfpm

    The part of the library that the package builder calls. *)
Module nfpm.

(** [nfpm.Info], by the fields the package builder reads and writes. *)
Record Info : Type := mkInfo {
  Name : string;
  Arch : string;
  Version : string;
  Release : string;
  Target : string
}.

(** [nfpm.Config]: the [Info] it embeds, and what else the configuration
    holds, which the package builder never looks at. *)
Record Config : Type := mkConfig {
  Inline : Info;
  Overrides : string
}.

(** [nfpm.Packager], by what [Package(info, w)] returns. *)
Definition Packager : Type := Info -> option error.

(** The functions of the library: [nfpm.Parse], [c.Get(format)],
    [nfpm.WithDefaults], [nfpm.Validate] and [nfpm.Get]. *)
Record Library : Type := mkLibrary {
  Parse : string -> error + Config;
  ConfigGet : Config -> string -> error + Info;
  WithDefaults : Info -> Info;
  Validate : Info -> option error;
  Get : string -> error + Packager
}.

End nfpm.

(** ** The package builder *)

Definition Format : Type := Z.
Definition DEB : Format := 0.
Definition RPM : Format := 1.

Definition formatString : gmap Z string :=
  list_to_map [(DEB, "deb"); (RPM, "rpm")].

(** The rows of [formatArch], each with its names for RPM and DEB. *)
Definition formatArchRows : list (string * gmap Z string) :=
  [("all", list_to_map [(RPM, "noarch"); (DEB, "noarch")]);
   ("amd64", list_to_map [(RPM, "x86_64"); (DEB, "amd64")]);
   ("386", list_to_map [(RPM, "i386"); (DEB, "i386")]);
   ("arm64", list_to_map [(RPM, "aarch64"); (DEB, "arm64")]);
   ("ppc64le", list_to_map [(RPM, "ppc64le"); (DEB, "ppc64el")]);
   ("s390x", list_to_map [(RPM, "s390x"); (DEB, "s390x")]);
   ("arm", list_to_map [(RPM, "armhfp"); (DEB, "armhf")]);
   ("arm5", list_to_map [(RPM, ""); (DEB, "armel")]);
   ("arm6", list_to_map [(RPM, "armhfp"); (DEB, "armhf")]);
   ("arm7", list_to_map [(RPM, "armhfp"); (DEB, "armhf")]);
   ("mipsle", list_to_map [(RPM, ""); (DEB, "mipsel")])].

Definition formatArch : gmap string (gmap Z string) :=
  list_to_map formatArchRows.

(** [m[k]] on a map of strings: the empty string for a key that is not
    there. *)
Definition at_ {K : Type} `{Countable K} (m : gmap K string) (k : K)
    : string :=
  default EmptyString (m !! k).

(** [c.Version = version] and [config.Arch = arch], on the embedded
    [Info]. *)
Definition withVersion (c : nfpm.Config) (version : string) : nfpm.Config :=
  let i := nfpm.Inline c in
  nfpm.mkConfig
    (nfpm.mkInfo (nfpm.Name i) (nfpm.Arch i) version (nfpm.Release i)
                 (nfpm.Target i))
    (nfpm.Overrides c).

Definition withArch (c : nfpm.Config) (arch : string) : nfpm.Config :=
  let i := nfpm.Inline c in
  nfpm.mkConfig
    (nfpm.mkInfo (nfpm.Name i) arch (nfpm.Version i) (nfpm.Release i)
                 (nfpm.Target i))
    (nfpm.Overrides c).

(** [info.Target = target] *)
Definition withTarget (i : nfpm.Info) (target : string) : nfpm.Info :=
  nfpm.mkInfo (nfpm.Name i) (nfpm.Arch i) (nfpm.Version i) (nfpm.Release i)
              target.

(** [getPackageInfo(c, format, version)] *)
Definition getPackageInfo (lib : nfpm.Library) (c : nfpm.Config)
    (format : Format) (version : string) : error + nfpm.Info :=
  let c := withVersion c version in
  match nfpm.ConfigGet lib c (at_ formatString format) with
  | inl err => inl (Errorf "package format: %s" [opError err])
  | inr info =>
      let info := nfpm.WithDefaults lib info in
      let named :=
        if format =? DEB then
          inr (withTarget info
                 (nfpm.Name info +:+ "_" +:+ nfpm.Version info +:+ "-" +:+
                  nfpm.Release info +:+ "_" +:+ nfpm.Arch info +:+ "." +:+
                  at_ formatString format))
        else if format =? RPM then
          inr (withTarget info
                 (nfpm.Name info +:+ "-" +:+ nfpm.Version info +:+ "-" +:+
                  nfpm.Release info +:+ "." +:+ nfpm.Arch info +:+ "." +:+
                  at_ formatString format))
        else inl (Errorf "unknown package format: %v" [opUint format]) in
      match named with
      | inl err => inl err
      | inr info =>
          match nfpm.Validate lib info with
          | Some err => inl err
          | None => inr info
          end
      end
  end.

Record Package : Type := mkPackage {
  Packager : nfpm.Packager;
  Info : nfpm.Info
}.

(** [NewPackage(configReader, format, version, arch)], the reader being
    the text it yields. *)
Definition NewPackage (lib : nfpm.Library) (configReader : string)
    (format : Format) (version arch : string) : error + Package :=
  match formatString !! format with
  | None => inl (Errorf "unsupported format" [])
  | Some fmtStr =>
      match nfpm.Parse lib configReader with
      | inl err =>
          inl (Errorf "while reading configuration: %s" [opError err])
      | inr config =>
          let config := withArch config EmptyString in
          let config :=
            match formatArch !! arch with
            | Some a => withArch config (at_ a format)
            | None => config
            end in
          match nfpm.Arch (nfpm.Inline config) with
          | EmptyString => inl (Errorf "unsupported architecture" [])
          | _ =>
              match getPackageInfo lib config format version with
              | inl err =>
                  inl (Errorf "while getting package information: %s"
                              [opError err])
              | inr info =>
                  match nfpm.Get lib fmtStr with
                  | inl err =>
                      inl (Errorf "while getting packager: %s" [opError err])
                  | inr packager => inr (mkPackage packager info)
                  end
              end
          end
      end
  end.

(** [p.Create(w)] *)
Definition Package_Create (p : Package) : option error :=
  match Packager p (Info p) with
  | Some err => Some (Errorf "while writing package: %s" [opError err])
  | None => None
  end.

(** * Vocabulary of the further properties *)

(** ** The semver synthesizer *)

(** The identifier GetSemver appends for the distance [k]. *)
Definition devel (k : Z) : semver.PRVersion :=
  semver.mkPRVersion ("devel." +:+ fmtUint k) 0 false.

(** -1, 0 or 1 for a comparison, as [Compare] returns them. *)
Definition sign (c : comparison) : Z :=
  match c with
  | Eq => 0
  | Lt => -1
  | Gt => 1
  end.

(** ** Data of the examples *)

(** The tagged repository tagged once more on the same commit: the tag
    objects 21 and 22 are v1.2.3 and v1.2.4, both on the commit 11, and
    the references come in that order. *)
Definition retaggedRepo : git.Repository :=
  git.mkRepository
    (git.Head taggedRepo)
    (git.GetWorktree taggedRepo)
    (inr (storer.mkIter
            [plumbing.mkReference "v1.2.3" 21%N;
             plumbing.mkReference "v1.2.4" 22%N] None))
    (fun h => if (h =? 21)%N then inr (tagNamed "v1.2.3")
              else if (h =? 22)%N then inr (tagNamed "v1.2.4")
              else inl ErrObjectNotFound)
    (git.Log taggedRepo).

(** The tagged repository without its tags. *)
Definition untaggedRepo : git.Repository :=
  git.mkRepository
    (git.Head taggedRepo)
    (git.GetWorktree taggedRepo)
    (inr (storer.mkIter [] None))
    (git.TagObject taggedRepo)
    (git.Log taggedRepo).

(** ** The describer *)

(** The package variables as the calls of GitDescribe leave them: before
    the computation has run, no description; after it, either a
    description with a distance within [uint64] and no error, or no
    description and an error. *)
Definition settled (g : Globals) : Prop :=
  if onceGitDescribe g then
    (exists gd,
       cachedGitDescription g = Some gd /\
       cachedGitDescriptionError g = None /\ 0 <= n gd < 2 ^ 64) \/
    (cachedGitDescription g = None /\
     exists err, cachedGitDescriptionError g = Some err)
  else cachedGitDescription g = None.

(** A result that is a description or an error, and not both. *)
Definition oneOf (result : option GitDescription * option error) : Prop :=
  (exists gd, result = (Some gd, None)) \/
  (exists err, result = (None, Some err)).

(** ** The archive builder *)

(** The name of an entry in the archive: the prefix joined with the
    path, and a slash after it for a directory. *)
Definition entryName (os : OS) (dir path : string) (fi : FileInfo) : string :=
  if IsDir fi then Join os dir path +:+ "/" else Join os dir path.

(** What a symlink points to, and nothing for what is no symlink. *)
Definition linkOf (os : OS) (path : string) (fi : FileInfo)
    : error + string :=
  if IsSymlink fi then Readlink os path else inr EmptyString.

(** The operations of one entry of a tar archive: the header made from
    the file information and the link, under the name of the entry, and
    after it the contents of the file when the file is regular. *)
Definition tarEntry (os : OS) (dir path : string) (m : list Event) : Prop :=
  exists fi link header body,
    Stat os path = inr fi /\ linkOf os path fi = inr link /\
    tarFileInfoHeader os fi link = inr header /\
    m = TarWriteHeader
          (mkTarHeader (entryName os dir path fi) (Linkname header)) :: body /\
    if IsRegular fi then
      exists file, Open os path = inr file /\ body = [TarWrite (contents file)]
    else body = [].

(** The operations of one entry of a zip archive: the header under the
    name of the entry, with the method Deflate, and one write: of the
    contents for a regular file, of the target for a symlink, of nothing
    for anything else. *)
Definition zipEntry (os : OS) (dir path : string) (m : list Event) : Prop :=
  exists fi data,
    Stat os path = inr fi /\
    m = [ZipCreateHeader (mkZipHeader (entryName os dir path fi) Deflate);
         ZipWrite data] /\
    if IsRegular fi then
      exists file, Open os path = inr file /\ data = contents file
    else linkOf os path fi = inr data.

(** The working directory with a sink that fails at every close. *)
Definition brokenSink : OS :=
  mkOS (Stat workdir) (Readlink workdir) (Open workdir) (Join workdir)
    (tarFileInfoHeader workdir) (zipFileInfoHeader workdir)
    (fun tr e =>
       match e with
       | TarClose | GzipClose | ZipClose => Some (errorString "broken pipe")
       | _ => None
       end).

(** A builder whose tag has a tree that cannot be read. *)
Definition treeless : GitArchive :=
  mkGitArchive
    (mkGitDescription true masterRef
       (Some (object.mkTag "v1.2.3" 11%N (inl ErrObjectNotFound))) 0)
    "proj-1.0".

(** ** The package builder *)

(** The architectures that [formatArch] knows. *)
Definition knownArch : list string :=
  ["all"; "amd64"; "386"; "arm64"; "ppc64le"; "s390x"; "arm"; "arm5";
   "arm6"; "arm7"; "mipsle"].

(** The name of an architecture for a format: what NewPackage puts in
    [config.Arch]. *)
Definition archName (arch : string) (format : Format) : string :=
  match formatArch !! arch with
  | Some a => at_ a format
  | None => EmptyString
  end.

(** The name the builder gives to a package. *)
Definition targetName (format : Format) (i : nfpm.Info) : string :=
  if format =? DEB then
    nfpm.Name i +:+ "_" +:+ nfpm.Version i +:+ "-" +:+ nfpm.Release i +:+
    "_" +:+ nfpm.Arch i +:+ ".deb"
  else
    nfpm.Name i +:+ "-" +:+ nfpm.Version i +:+ "-" +:+ nfpm.Release i +:+
    "." +:+ nfpm.Arch i +:+ ".rpm".

(** A library that reads every configuration as the package [tool] in
    its first release, keeps what it is given, and has a packager for
    every format. *)
Definition plainLibrary : nfpm.Library :=
  nfpm.mkLibrary
    (fun text =>
       inr (nfpm.mkConfig
              (nfpm.mkInfo "tool" "anything" "0.0.0" "1" EmptyString) text))
    (fun c format => inr (nfpm.Inline c))
    (fun i => i)
    (fun i => None)
    (fun format => inr (fun i => None)).

(** * Properties *)

(** ** The semver synthesizer *)

(** What [semver.Parse] reads as patch number fits in a [uint64]. *)
Lemma parseDigits_range (s : string) (acc n : Z) :
  0 <= acc <= maxUint64 -> semver.parseDigits s acc = inr n ->
  0 <= n <= maxUint64.
Proof.
  revert acc. induction s as [| c s IH]; intros acc Hacc; simpl.
  - intros Heq. injection Heq as <-. exact Hacc.
  - unfold semver.digit.
    destruct ((48 <=? Z.of_N (N_of_ascii c)) && (Z.of_N (N_of_ascii c) <=? 57))
      eqn:Hdigit; [| discriminate].
    apply andb_prop in Hdigit as [Hlow Hhigh].
    apply Z.leb_le in Hlow. apply Z.leb_le in Hhigh.
    destruct (Z.gtb_spec (acc * 10 + (Z.of_N (N_of_ascii c) - 48)) maxUint64)
      as [| Hfits]; [discriminate |].
    apply IH. lia.
Qed.

Lemma parseNumber_range (invalid leading s : string) (n : Z) :
  semver.parseNumber invalid leading s = inr n -> 0 <= n <= maxUint64.
Proof.
  unfold semver.parseNumber, semver.ParseUint.
  destruct (negb (semver.containsOnly s semver.numbers)); [discriminate |].
  destruct (semver.hasLeadingZeroes s); [discriminate |].
  destruct s as [| c s]; [discriminate |].
  destruct (semver.parseDigits (String c s) 0) as [| m] eqn:Hdigits;
    [discriminate |].
  intros Heq. injection Heq as <-.
  apply (parseDigits_range (String c s) 0);
    [unfold maxUint64; lia | exact Hdigits].
Qed.

Lemma Parse_patch_range (s : string) (v : semver.Version) :
  semver.Parse s = inr v -> 0 <= semver.Patch v <= maxUint64.
Proof.
  unfold semver.Parse. destruct s as [| c s]; [discriminate |].
  destruct (semver.SplitN (String c s) "." 3) as [| p0 [| p1 [| p2 [| ? ?]]]];
    try discriminate.
  destruct (semver.parseNumber _ _ p0); [discriminate |].
  destruct (semver.parseNumber _ _ p1); [discriminate |].
  destruct (match semver.cut "+" p2 with
            | Some (a, b) => (a, semver.Split b ".")
            | None => (p2, [])
            end) as [patchStr build].
  destruct (match semver.cut "-" patchStr with
            | Some (a, b) => (a, semver.Split b ".")
            | None => (patchStr, [])
            end) as [patchStr' prerelease].
  destruct (semver.parseNumber _ _ patchStr') as [| patch] eqn:Hpatch;
    [discriminate |].
  destruct (semver.parsePre prerelease); [discriminate |].
  destruct (semver.parseBuild build); [discriminate |].
  intros Heq. injection Heq as <-. simpl.
  exact (parseNumber_range _ _ _ _ Hpatch).
Qed.

Section GetSemver.

Variable gd : GitDescription.
Variable t : object.Tag.
Variable s : string.
Hypothesis Htag : tag gd = Some t.
Hypothesis Hname : slice_from (object.Name t) 1 = Some s.

(** C3. At distance 0 GetSemver returns what parsing the tag name, its
    first byte dropped, returns: the parsed version as it is, or the
    error of the parser. *)
Theorem GetSemver_at_tag : n gd = 0 -> GetSemver gd = Returned (semver.Parse s).
Proof using Htag Hname.
  intros Hn. unfold GetSemver. rewrite Htag, Hname, Hn.
  destruct (semver.Parse s); reflexivity.
Qed.

(** C2, as amended. Past a tag without pre-release part the patch number
    is the tag's plus one as [uint64] computes it: the tag's plus one
    unless the tag's is the largest [uint64], and 0 then. The
    pre-release part is [alpha.<that patch number>] followed by
    [devel.<distance>], and major, minor and build metadata are the
    tag's. *)
Theorem GetSemver_next_patch (v : semver.Version) :
  semver.Parse s = inr v -> semver.Pre v = [] -> n gd > 0 ->
  GetSemver gd =
    Returned (inr (nextPatch gd v (wrap64 (semver.Patch v + 1)))) /\
  wrap64 (semver.Patch v + 1) =
    (if semver.Patch v =? maxUint64 then 0 else semver.Patch v + 1).
Proof using Htag Hname.
  intros Hparse Hpre Hn.
  assert (Hgt : (n gd >? 0) = true) by (apply Z.gtb_lt; lia).
  split.
  - unfold GetSemver. rewrite Htag, Hname, Hparse, Hgt, Hpre. reflexivity.
  - pose proof (Parse_patch_range s v Hparse) as Hrange.
    unfold wrap64. unfold maxUint64 in *.
    destruct (Z.eqb_spec (semver.Patch v) 18446744073709551615) as [-> | Hne].
    + reflexivity.
    + apply Z.mod_small. lia.
Qed.

End GetSemver.

Lemma GetSemver_at_tag_witness :
  GetSemver (past "v1.2.3" 0) =
  Returned (inr (semver.mkVersion 1 2 3 [] [])).
Proof.
  apply (GetSemver_at_tag (past "v1.2.3" 0) (tagNamed "v1.2.3") "1.2.3");
    reflexivity.
Defined.

Lemma GetSemver_next_patch_witness :
  GetSemver (past "v1.2.3" 5) =
  Returned (inr (semver.mkVersion 1 2 4
                   [semver.mkPRVersion "alpha.4" 0 false;
                    semver.mkPRVersion "devel.5" 0 false] [])).
Proof.
  exact (proj1 (GetSemver_next_patch (past "v1.2.3" 5) (tagNamed "v1.2.3")
                  "1.2.3" eq_refl eq_refl (semver.mkVersion 1 2 3 [] [])
                  eq_refl eq_refl eq_refl)).
Defined.

(** Past the tag v0.0.18446744073709551615 the patch number is 0 and the
    label is alpha.0. *)
Lemma GetSemver_patch_wraps :
  ~ patch_plus_one (past "v0.0.18446744073709551615" 1) /\
  GetSemver (past "v0.0.18446744073709551615" 1) =
  Returned (inr (semver.mkVersion 0 0 0
                   [semver.mkPRVersion "alpha.0" 0 false;
                    semver.mkPRVersion "devel.1" 0 false] [])).
Proof.
  split; [| vm_compute; reflexivity].
  intros H.
  specialize (H (tagNamed "v0.0.18446744073709551615")
                "0.0.18446744073709551615"
                (semver.mkVersion 0 0 18446744073709551615 [] [])
                eq_refl eq_refl eq_refl eq_refl eq_refl).
  vm_compute in H. discriminate H.
Qed.

(** ** The order of the synthesized versions *)

Lemma string_compare_refl (s : string) : String.compare s s = Eq.
Proof.
  induction s as [| c s IH]; simpl; [reflexivity |].
  unfold Ascii.compare. rewrite N.compare_refl. exact IH.
Qed.

Lemma PRCompare_refl (x : semver.PRVersion) : semver.PRCompare x x = 0.
Proof.
  unfold semver.PRCompare. destruct (semver.IsNum x); simpl.
  - rewrite Z.eqb_refl. reflexivity.
  - rewrite string_compare_refl. reflexivity.
Qed.

(** Two lists of identifiers that differ in the last one only compare as
    their last identifiers do. *)
Lemma comparePre_last (l : list semver.PRVersion) (a b : semver.PRVersion) :
  semver.comparePre (l ++ [a]) (l ++ [b]) =
  if semver.PRCompare a b =? 0 then 0
  else if semver.PRCompare a b =? 1 then 1 else -1.
Proof.
  induction l as [| x l IH]; simpl.
  - destruct (semver.PRCompare a b =? 0); reflexivity.
  - rewrite PRCompare_refl. simpl. exact IH.
Qed.

Lemma Compare_last (major minor patch : Z) (l : list semver.PRVersion)
    (a b : semver.PRVersion) (build : list string) :
  semver.Compare (semver.mkVersion major minor patch (l ++ [a]) build)
                 (semver.mkVersion major minor patch (l ++ [b]) build) =
  if semver.PRCompare a b =? 0 then 0
  else if semver.PRCompare a b =? 1 then 1 else -1.
Proof.
  unfold semver.Compare. simpl. rewrite !Z.eqb_refl. simpl.
  rewrite <- (comparePre_last l a b). destruct l; reflexivity.
Qed.

(** The identifier [devel.<d>] is one string: two of them are compared
    byte by byte, so the distances are compared as their decimal
    writings and not as numbers. *)
Lemma PRCompare_devel (d1 d2 : Z) :
  semver.PRCompare
    (semver.mkPRVersion ("devel." +:+ fmtUint d1) 0 false)
    (semver.mkPRVersion ("devel." +:+ fmtUint d2) 0 false) =
  match String.compare (fmtUint d1) (fmtUint d2) with
  | Eq => 0
  | Gt => 1
  | Lt => -1
  end.
Proof. reflexivity. Qed.

(** For two distances past the same tag, [Compare] orders the two
    versions of GetSemver as the decimal writings of the distances are
    ordered as strings. *)
Lemma GetSemver_order (t : object.Tag) (s : string) (v : semver.Version)
    (clean1 clean2 : bool) (r1 r2 : plumbing.Reference) (d1 d2 : Z) :
  slice_from (object.Name t) 1 = Some s -> semver.Parse s = inr v ->
  d1 > 0 -> d2 > 0 ->
  exists v1 v2,
    GetSemver (mkGitDescription clean1 r1 (Some t) d1) = Returned (inr v1) /\
    GetSemver (mkGitDescription clean2 r2 (Some t) d2) = Returned (inr v2) /\
    semver.Compare v1 v2 =
    match String.compare (fmtUint d1) (fmtUint d2) with
    | Eq => 0
    | Gt => 1
    | Lt => -1
    end.
Proof.
  intros Hname Hparse H1 H2.
  assert (G1 : (d1 >? 0) = true) by (apply Z.gtb_lt; lia).
  assert (G2 : (d2 >? 0) = true) by (apply Z.gtb_lt; lia).
  unfold GetSemver. simpl. rewrite Hname, Hparse, G1, G2.
  do 2 eexists. split; [reflexivity |]. split; [reflexivity |].
  destruct v as [major minor patch [| x l] build]; cbn [semver.Pre
    semver.Major semver.Minor semver.Patch semver.Build].
  - etransitivity; [apply (Compare_last _ _ _ [_]) |].
    rewrite PRCompare_devel.
    destruct (String.compare (fmtUint d1) (fmtUint d2)); reflexivity.
  - etransitivity; [apply (Compare_last _ _ _ (x :: l)) |].
    rewrite PRCompare_devel.
    destruct (String.compare (fmtUint d1) (fmtUint d2)); reflexivity.
Qed.

(** C1. Past the tag v1.2.3, the version at distance 9 is 1.2.4 with
    the identifiers alpha.4 and devel.9, the version at distance 10 has
    alpha.4 and devel.10, and [Compare] puts the first after the second:
    the order of the distances is not the order of the versions. *)
Theorem GetSemver_distance_9_after_10 :
  GetSemver (past "v1.2.3" 9) =
    Returned (inr (semver.mkVersion 1 2 4
                     [semver.mkPRVersion "alpha.4" 0 false;
                      semver.mkPRVersion "devel.9" 0 false] [])) /\
  GetSemver (past "v1.2.3" 10) =
    Returned (inr (semver.mkVersion 1 2 4
                     [semver.mkPRVersion "alpha.4" 0 false;
                      semver.mkPRVersion "devel.10" 0 false] [])) /\
  semver.Compare
    (semver.mkVersion 1 2 4
       [semver.mkPRVersion "alpha.4" 0 false;
        semver.mkPRVersion "devel.9" 0 false] [])
    (semver.mkVersion 1 2 4
       [semver.mkPRVersion "alpha.4" 0 false;
        semver.mkPRVersion "devel.10" 0 false] []) = 1.
Proof. repeat split; vm_compute; reflexivity. Qed.

(** Written out and parsed again, the same two versions have the
    identifiers alpha, 4, devel and the distance as a number, and are in
    the order of the distances. *)
Example reparsed_9_before_10 :
  semver.VString
    (semver.mkVersion 1 2 4
       [semver.mkPRVersion "alpha.4" 0 false;
        semver.mkPRVersion "devel.9" 0 false] []) = "1.2.4-alpha.4.devel.9" /\
  (forall v9 v10,
     semver.Parse "1.2.4-alpha.4.devel.9" = inr v9 ->
     semver.Parse "1.2.4-alpha.4.devel.10" = inr v10 ->
     semver.Compare v9 v10 = -1).
Proof.
  split; [vm_compute; reflexivity |].
  intros v9 v10 H9 H10. vm_compute in H9, H10.
  injection H9 as <-. injection H10 as <-. vm_compute. reflexivity.
Qed.

(** ** The tag selector *)

Section TagSelector.

Variable r : git.Repository.

Lemma selectTag_skips (ref : plumbing.Reference)
    (tags : gmap plumbing.Hash object.Tag) :
  semverNamed ref = false -> selectTag r ref tags = (None, tags).
Proof.
  unfold semverNamed, selectTag.
  destruct (plumbing.Short ref) as [| c rest]; [reflexivity |].
  destruct (semver.Parse rest); [reflexivity | discriminate].
Qed.

Lemma selectTag_named (ref : plumbing.Reference)
    (tags : gmap plumbing.Hash object.Tag) :
  semverNamed ref = true ->
  selectTag r ref tags =
  match git.TagObject r (plumbing.RefHash ref) with
  | inl err => (Some err, tags)
  | inr t => (None, <[object.Target t := t]> tags)
  end.
Proof.
  unfold semverNamed, selectTag.
  destruct (plumbing.Short ref) as [| c rest]; [discriminate |].
  destruct (semver.Parse rest); [discriminate | reflexivity].
Qed.

Lemma resolvable_cons (ref : plumbing.Reference)
    (refs : list plumbing.Reference) :
  resolvable r (ref :: refs) -> resolvable r refs.
Proof. intros H x Hx. apply H. now apply list_elem_of_further. Qed.

(** While every lookup succeeds the loop goes through the references
    that come first and carries on with the ones that follow. *)
Lemma forEach_selectTag_app (pre rest : list plumbing.Reference)
    (fin : option error) (tags : gmap plumbing.Hash object.Tag) :
  resolvable r pre ->
  storer.forEach (selectTag r) (pre ++ rest) fin tags =
  storer.forEach (selectTag r) rest fin (selected r pre tags).
Proof.
  revert tags. induction pre as [| ref pre IH]; intros tags Hres;
    [reflexivity |].
  simpl. unfold selected at 1. simpl foldl.
  destruct (semverNamed ref) eqn:Hnamed.
  - rewrite (selectTag_named _ _ Hnamed).
    destruct (Hres ref (list_elem_of_here _ _) Hnamed) as [t Ht].
    rewrite Ht. apply IH. now apply resolvable_cons with ref.
  - rewrite (selectTag_skips _ _ Hnamed).
    apply IH. now apply resolvable_cons with ref.
Qed.

Lemma selected_keeps (refs : list plumbing.Reference)
    (tags : gmap plumbing.Hash object.Tag) (h : plumbing.Hash) :
  is_Some (tags !! h) -> is_Some (selected r refs tags !! h).
Proof.
  revert tags. induction refs as [| ref refs IH]; intros tags Hin;
    [exact Hin |].
  unfold selected. simpl foldl. apply IH.
  destruct (semverNamed ref); [| exact Hin].
  destruct (git.TagObject r (plumbing.RefHash ref)) as [| t]; [exact Hin |].
  destruct (decide (object.Target t = h)) as [-> | Hne].
  - rewrite lookup_insert_eq. eauto.
  - now rewrite lookup_insert_ne.
Qed.

Lemma selected_has (refs : list plumbing.Reference)
    (tags : gmap plumbing.Hash object.Tag) (ref : plumbing.Reference)
    (t : object.Tag) :
  ref ∈ refs -> semverNamed ref = true ->
  git.TagObject r (plumbing.RefHash ref) = inr t ->
  is_Some (selected r refs tags !! object.Target t).
Proof.
  revert tags. induction refs as [| x refs IH]; intros tags Hin Hnamed Ht.
  - now apply elem_of_nil in Hin.
  - apply elem_of_cons in Hin as [<- | Hin].
    + unfold selected. simpl foldl. rewrite Hnamed, Ht.
      apply selected_keeps. rewrite lookup_insert_eq. eauto.
    + unfold selected. simpl foldl. now apply IH.
Qed.

Lemma selected_from (refs : list plumbing.Reference)
    (tags : gmap plumbing.Hash object.Tag) (h : plumbing.Hash)
    (t : object.Tag) :
  selected r refs tags !! h = Some t ->
  tags !! h = Some t \/
  (object.Target t = h /\
   exists ref, ref ∈ refs /\ semverNamed ref = true /\
               git.TagObject r (plumbing.RefHash ref) = inr t).
Proof.
  revert tags. induction refs as [| x refs IH]; intros tags Hsel;
    [now left |].
  unfold selected in Hsel. simpl foldl in Hsel.
  apply IH in Hsel as [Hold | (Htarget & ref & Hin & Hnamed & Ht)].
  - destruct (semverNamed x) eqn:Hnamed; [| now left].
    destruct (git.TagObject r (plumbing.RefHash x)) as [| t'] eqn:Ht;
      [now left |].
    destruct (decide (object.Target t' = h)) as [Heq | Hne].
    + subst h. rewrite lookup_insert_eq in Hold. injection Hold as ->.
      right. split; [reflexivity |]. exists x.
      split; [apply list_elem_of_here | now split].
    + rewrite lookup_insert_ne in Hold by exact Hne. now left.
  - right. split; [exact Htarget |]. exists ref.
    split; [now apply list_elem_of_further | now split].
Qed.

End TagSelector.

(** C4, as amended. When the references are listed to the end and every
    semver-named one resolves to a tag object, tag selection returns no
    error and a map that has, for each of them, an entry under the
    target of its tag object; every entry of the map is such a tag
    object under its own target, so a reference whose name does not
    parse adds nothing and raises nothing. When the lookup of a
    semver-named reference fails, as it does for a lightweight tag, the
    selection ends with the error of that lookup. *)
Theorem getVersionTags_selects (r : git.Repository)
    (refs : list plumbing.Reference) :
  git.Tags r = inr (storer.mkIter refs None) ->
  (resolvable r refs ->
   exists tags,
     getVersionTags r = (tags, None) /\
     (forall ref t,
        ref ∈ refs -> semverNamed ref = true ->
        git.TagObject r (plumbing.RefHash ref) = inr t ->
        is_Some (tags !! object.Target t)) /\
     (forall h t,
        tags !! h = Some t ->
        object.Target t = h /\
        exists ref, ref ∈ refs /\ semverNamed ref = true /\
                    git.TagObject r (plumbing.RefHash ref) = inr t)) /\
  (forall pre ref rest err,
     refs = pre ++ ref :: rest -> resolvable r pre ->
     semverNamed ref = true ->
     git.TagObject r (plumbing.RefHash ref) = inl err -> err <> ErrStop ->
     snd (getVersionTags r) = Some err).
Proof.
  intros Htags. unfold getVersionTags, storer.ForEach. rewrite Htags.
  cbn [storer.yielded storer.final]. split.
  - intros Hres. exists (selected r refs ∅).
    pose proof (forEach_selectTag_app r refs [] None ∅ Hres) as Hloop.
    rewrite app_nil_r in Hloop. rewrite Hloop. simpl.
    split; [reflexivity |]. split.
    + intros ref t Hin Hnamed Ht. now apply selected_has with ref.
    + intros h t Hlook.
      apply selected_from in Hlook as [Hempty | Hfrom]; [| exact Hfrom].
      rewrite lookup_empty in Hempty. discriminate.
  - intros pre ref rest err -> Hres Hnamed Ht Hstop.
    rewrite (forEach_selectTag_app r pre (ref :: rest) None ∅ Hres).
    simpl. rewrite (selectTag_named r _ _ Hnamed), Ht.
    destruct err; try reflexivity. now contradiction Hstop.
Qed.

Lemma taggedRepo_resolvable :
  resolvable taggedRepo
    [plumbing.mkReference "v1.2.3" 21%N;
     plumbing.mkReference "not-a-version" 12%N].
Proof.
  intros ref Hin Hnamed.
  apply elem_of_cons in Hin as [-> | Hin]; [eexists; reflexivity |].
  apply elem_of_cons in Hin as [-> | Hin]; [discriminate Hnamed |].
  now apply elem_of_nil in Hin.
Defined.

Lemma getVersionTags_selects_witness :
  (exists tags,
     getVersionTags taggedRepo = (tags, None) /\
     is_Some (tags !! 11%N) /\ tags !! 12%N = None) /\
  snd (getVersionTags lightweightRepo) = Some ErrObjectNotFound.
Proof.
  split.
  - destruct (getVersionTags_selects taggedRepo _ eq_refl) as [Hsel _].
    destruct (Hsel taggedRepo_resolvable) as (tags & Heq & Hhas & Hfrom).
    exists tags. split; [exact Heq |]. split.
    + apply (Hhas (plumbing.mkReference "v1.2.3" 21%N) (tagNamed "v1.2.3"));
        [apply list_elem_of_here | reflexivity | reflexivity].
    + destruct (tags !! 12%N) as [t |] eqn:Hlook; [| reflexivity].
      destruct (Hfrom _ _ Hlook) as (Htarget & ref & Hin & Hnamed & Ht).
      exfalso.
      apply elem_of_cons in Hin as [-> | Hin].
      * vm_compute in Ht. injection Ht as <-. discriminate Htarget.
      * apply elem_of_cons in Hin as [-> | Hin]; [discriminate Hnamed |].
        now apply elem_of_nil in Hin.
  - destruct (getVersionTags_selects lightweightRepo _ eq_refl) as [_ Hfail].
    apply (Hfail [plumbing.mkReference "v1.2.3" 21%N]
                 (plumbing.mkReference "v2.0.0" 13%N) []);
      [reflexivity | | reflexivity | reflexivity | discriminate].
    intros ref Hin Hnamed.
    apply elem_of_cons in Hin as [-> | Hin]; [eexists; reflexivity |].
    now apply elem_of_nil in Hin.
Defined.

(** With a lightweight tag named as a version among the references, tag
    selection returns the error of the lookup. *)
Lemma getVersionTags_lightweight_fails : ~ selection_succeeds lightweightRepo.
Proof.
  intros H. specialize (H _ eq_refl). vm_compute in H. discriminate H.
Qed.

(** ** The history walker *)

Lemma selectTag_keyed (r : git.Repository) (ref : plumbing.Reference)
    (tags : gmap plumbing.Hash object.Tag) :
  keyedByTarget tags -> keyedByTarget (snd (selectTag r ref tags)).
Proof.
  intros Hkeyed. unfold selectTag.
  destruct (plumbing.Short ref) as [| c rest]; [exact Hkeyed |].
  destruct (semver.Parse rest); [exact Hkeyed |].
  destruct (git.TagObject r (plumbing.RefHash ref)) as [| t];
    [exact Hkeyed |].
  intros h t' Hlook. simpl in Hlook.
  destruct (decide (object.Target t = h)) as [Heq | Hne].
  - subst h. rewrite lookup_insert_eq in Hlook. now injection Hlook as <-.
  - rewrite lookup_insert_ne in Hlook by exact Hne. now apply Hkeyed.
Qed.

Lemma forEach_selectTag_keyed (r : git.Repository)
    (refs : list plumbing.Reference) (fin : option error)
    (tags : gmap plumbing.Hash object.Tag) :
  keyedByTarget tags ->
  keyedByTarget (snd (storer.forEach (selectTag r) refs fin tags)).
Proof.
  revert tags. induction refs as [| ref refs IH]; intros tags Hkeyed;
    [exact Hkeyed |].
  simpl. pose proof (selectTag_keyed r ref tags Hkeyed) as Hstep.
  destruct (selectTag r ref tags) as [[err |] tags']; simpl in Hstep.
  - destruct err; exact Hstep.
  - now apply IH.
Qed.

Lemma getVersionTags_keyed (r : git.Repository) :
  keyedByTarget (fst (getVersionTags r)).
Proof.
  unfold getVersionTags.
  destruct (git.Tags r) as [err | tagIter]; [intros h t; simpl |].
  - rewrite lookup_empty. discriminate.
  - unfold storer.ForEach.
    pose proof (forEach_selectTag_keyed r (storer.yielded tagIter)
                  (storer.final tagIter) ∅) as Hkeyed.
    destruct (storer.forEach (selectTag r) (storer.yielded tagIter)
                (storer.final tagIter) ∅) as [err tags].
    apply Hkeyed. intros h t. rewrite lookup_empty. discriminate.
Qed.

Section Walk.

Variable tags : gmap plumbing.Hash object.Tag.

Lemma wrap64_succ (m : Z) : wrap64 (wrap64 m + 1) = wrap64 (m + 1).
Proof. unfold wrap64. apply Zplus_mod_idemp_l. Qed.

(** Over commits that are not tagged the walk only counts. *)
Lemma forEach_visit_untagged (pre rest : list object.Commit)
    (fin : option error) (clean : bool) (described : plumbing.Reference)
    (tg : option object.Tag) (m : Z) :
  untagged tags pre ->
  storer.forEach (visit tags) (pre ++ rest) fin
    (mkGitDescription clean described tg (wrap64 m)) =
  storer.forEach (visit tags) rest fin
    (mkGitDescription clean described tg
       (wrap64 (m + Z.of_nat (length pre)))).
Proof.
  revert m. induction pre as [| c pre IH]; intros m Hun.
  - simpl. now rewrite Z.add_0_r.
  - simpl app. cbn [storer.forEach]. unfold visit at 1.
    rewrite (Hun c (list_elem_of_here _ _)). cbn [isClean ref tag n].
    rewrite wrap64_succ, IH.
    + do 3 f_equal. rewrite length_cons. lia.
    + intros c' Hc'. apply Hun. now apply list_elem_of_further.
Qed.

Lemma forEach_visit_from_zero (pre rest : list object.Commit)
    (fin : option error) (clean : bool) (described : plumbing.Reference)
    (tg : option object.Tag) :
  untagged tags pre ->
  storer.forEach (visit tags) (pre ++ rest) fin
    (mkGitDescription clean described tg 0) =
  storer.forEach (visit tags) rest fin
    (mkGitDescription clean described tg (wrap64 (Z.of_nat (length pre)))).
Proof.
  intros Hun. change 0 with (wrap64 0) at 1.
  now rewrite forEach_visit_untagged.
Qed.

(** The walk stops at the first tagged commit, with its tag and the
    number of commits before it. *)
Lemma walk_stops (pre : list object.Commit) (c : object.Commit)
    (post : list object.Commit) (t : object.Tag) (fin : option error)
    (clean : bool) (described : plumbing.Reference) :
  untagged tags pre -> tags !! object.Hash c = Some t ->
  storer.forEach (visit tags) (pre ++ c :: post) fin
    (mkGitDescription clean described None 0) =
  (None, mkGitDescription clean described (Some t)
           (wrap64 (Z.of_nat (length pre)))).
Proof.
  intros Hun Ht. rewrite forEach_visit_from_zero by exact Hun.
  cbn [storer.forEach]. unfold visit. now rewrite Ht.
Qed.

(** Either some commit is the first tagged one, or none is tagged. *)
Lemma first_tagged (cs : list object.Commit) :
  (exists pre c post t,
     cs = pre ++ c :: post /\ untagged tags pre /\
     tags !! object.Hash c = Some t) \/
  untagged tags cs.
Proof.
  induction cs as [| c cs IH].
  - right. intros c Hc. now apply elem_of_nil in Hc.
  - destruct (tags !! object.Hash c) as [t |] eqn:Hc.
    + left. exists [], c, cs, t. split; [reflexivity |].
      split; [| exact Hc]. intros c' Hc'. now apply elem_of_nil in Hc'.
    + destruct IH as [(pre & c' & post & t & -> & Hun & Ht) | Hun].
      * left. exists (c :: pre), c', post, t. split; [reflexivity |].
        split; [| exact Ht].
        intros x Hx. apply elem_of_cons in Hx as [-> | Hx]; auto.
      * right. intros x Hx. apply elem_of_cons in Hx as [-> | Hx]; auto.
Qed.

End Walk.

Section Describe.

Variable r : git.Repository.
Variable described : plumbing.Reference.
Variable commits : list object.Commit.
Variable fin : option error.

(** The commits the log yields, in committer-time order from the hash
    of the reference, and how the log ends. *)
Hypothesis Hlog :
  git.Log r (logOptions described) = inr (storer.mkIter commits fin).

(** Once the work tree, its status and the tags are read, [describe] is
    the walk over the log. *)
Lemma describe_is_walk (w : git.Worktree) (clean : bool)
    (tags : gmap plumbing.Hash object.Tag) :
  git.GetWorktree r = inr w -> git.Status w = inr clean ->
  getVersionTags r = (tags, None) ->
  describe r described =
  match storer.forEach (visit tags) commits fin
          (mkGitDescription clean described None 0) with
  | (Some err, _) => inl err
  | (None, gd) => inr gd
  end.
Proof using Hlog.
  intros Hw Hstatus Htags. unfold describe.
  rewrite Hw, Hstatus, Htags. fold (logOptions described). rewrite Hlog.
  reflexivity.
Qed.

(** C5. The walk takes the commits in the order of the log asked for in
    committer-time order from the reference, the distance starting at
    zero. At the first commit that is a key of the tag mapping it stops
    with that tag and with the number of commits that came before it as
    distance, so with 0 when the first commit is tagged; a commit that
    is no key adds one to the distance and the walk goes on. When the
    log ends and no commit was a key, the description has no tag. *)
Theorem describe_walks (w : git.Worktree) (clean : bool)
    (tags : gmap plumbing.Hash object.Tag) :
  git.GetWorktree r = inr w -> git.Status w = inr clean ->
  getVersionTags r = (tags, None) ->
  (forall pre c post t,
     commits = pre ++ c :: post -> untagged tags pre ->
     tags !! object.Hash c = Some t ->
     describe r described =
     inr (mkGitDescription clean described (Some t)
            (wrap64 (Z.of_nat (length pre))))) /\
  (untagged tags commits -> fin = None ->
   describe r described =
   inr (mkGitDescription clean described None
          (wrap64 (Z.of_nat (length commits))))).
Proof using Hlog.
  intros Hw Hstatus Htags.
  rewrite (describe_is_walk w clean tags Hw Hstatus Htags). split.
  - intros pre c post t -> Hun Ht. now rewrite (walk_stops tags pre c post t).
  - intros Hun ->.
    rewrite <- (app_nil_r commits) at 1.
    rewrite forEach_visit_from_zero by exact Hun. reflexivity.
Qed.

(** When the log ends and no commit was tagged, [describe] returns a
    description only if the log ended without error, and the distance
    is then the number of commits. *)
Lemma describe_untagged (tags : gmap plumbing.Hash object.Tag)
    (gd : GitDescription) :
  getVersionTags r = (tags, None) -> untagged tags commits ->
  describe r described = inr gd ->
  tag gd = None /\ n gd = wrap64 (Z.of_nat (length commits)).
Proof using Hlog.
  intros Htags Hun. unfold describe.
  destruct (git.GetWorktree r) as [| w]; [discriminate |].
  destruct (git.Status w) as [| clean]; [discriminate |].
  rewrite Htags. fold (logOptions described). rewrite Hlog.
  unfold storer.ForEach. cbn [storer.yielded storer.final].
  rewrite <- (app_nil_r commits) at 1.
  rewrite forEach_visit_from_zero by exact Hun.
  cbn [storer.forEach].
  destruct (match fin with Some EOF => None | _ => fin end);
    [discriminate |].
  intros Hgd. injection Hgd as <-. split; reflexivity.
Qed.

(** C6. When the log starts at the commit of the described reference, as
    the log of go-git does, and has fewer than 2^64 commits, a
    description that [describe] returns with distance 0 has a tag, and
    the target of that tag is the commit of the reference. *)
Theorem describe_distance_zero (gd : GitDescription) :
  (exists c rest,
     commits = c :: rest /\ object.Hash c = plumbing.RefHash described) ->
  Z.of_nat (length commits) < 2 ^ 64 ->
  describe r described = inr gd -> n gd = 0 ->
  exists t, tag gd = Some t /\
            object.Target t = plumbing.RefHash described.
Proof using Hlog.
  intros (c0 & rest & Hcommits & Hc0) Hbound Hdescribe Hzero.
  assert (Hshape : exists w clean tags,
            git.GetWorktree r = inr w /\ git.Status w = inr clean /\
            getVersionTags r = (tags, None)).
  { unfold describe in Hdescribe.
    destruct (git.GetWorktree r) as [| w]; [discriminate |].
    destruct (git.Status w) as [| clean] eqn:Hstatus; [discriminate |].
    destruct (getVersionTags r) as [tags [err |]]; [discriminate |].
    now exists w, clean, tags. }
  destruct Hshape as (w & clean & tags & Hw & Hstatus & Htags).
  pose proof (getVersionTags_keyed r) as Hkeyed.
  rewrite Htags in Hkeyed. simpl in Hkeyed.
  destruct (first_tagged tags commits)
    as [(pre & c & post & t & Hsplit & Hun & Ht) | Hun].
  - rewrite (describe_is_walk w clean tags Hw Hstatus Htags) in Hdescribe.
    rewrite Hsplit, (walk_stops tags pre c post t) in Hdescribe
      by assumption.
    injection Hdescribe as <-. cbn [n tag] in *.
    assert (Hlen : Z.of_nat (length pre) < 2 ^ 64).
    { rewrite Hsplit, length_app in Hbound. lia. }
    unfold wrap64 in Hzero. rewrite Z.mod_small in Hzero by lia.
    destruct pre as [| x pre]; [| simpl in Hzero; lia].
    exists t. split; [reflexivity |].
    rewrite Hcommits in Hsplit. injection Hsplit as -> _.
    rewrite (Hkeyed _ _ Ht). exact Hc0.
  - exfalso.
    destruct (describe_untagged tags gd Htags Hun Hdescribe) as [_ Hn].
    rewrite Hn in Hzero. unfold wrap64 in Hzero.
    rewrite Z.mod_small in Hzero by lia.
    rewrite Hcommits in Hzero. simpl in Hzero. lia.
Qed.

End Describe.

Lemma describe_walks_witness :
  describe taggedRepo masterRef =
  inr (mkGitDescription true masterRef (Some (tagNamed "v1.2.3")) 2) /\
  describe taggedRepo releaseRef =
  inr (mkGitDescription true releaseRef (Some (tagNamed "v1.2.3")) 0).
Proof.
  split.
  - destruct (describe_walks taggedRepo masterRef _ None eq_refl
                (git.mkWorktree (inr true)) true
                (fst (getVersionTags taggedRepo)) eq_refl eq_refl eq_refl)
      as [Hstop _].
    apply (Hstop [object.mkCommit 13%N; object.mkCommit 12%N]
                 (object.mkCommit 11%N) [object.mkCommit 10%N]
                 (tagNamed "v1.2.3")); [reflexivity | | reflexivity].
    intros c Hc.
    apply elem_of_cons in Hc as [-> | Hc]; [reflexivity |].
    apply elem_of_cons in Hc as [-> | Hc]; [reflexivity |].
    now apply elem_of_nil in Hc.
  - destruct (describe_walks taggedRepo releaseRef _ None eq_refl
                (git.mkWorktree (inr true)) true
                (fst (getVersionTags taggedRepo)) eq_refl eq_refl eq_refl)
      as [Hstop _].
    apply (Hstop [] (object.mkCommit 11%N) [object.mkCommit 10%N]
                 (tagNamed "v1.2.3")); [reflexivity | | reflexivity].
    intros c Hc. now apply elem_of_nil in Hc.
Defined.

Lemma describe_distance_zero_witness :
  exists t,
    tag (mkGitDescription true releaseRef (Some (tagNamed "v1.2.3")) 0) =
    Some t /\
    object.Target t = 11%N.
Proof.
  apply (describe_distance_zero taggedRepo releaseRef
           [object.mkCommit 11%N; object.mkCommit 10%N] None eq_refl).
  - exists (object.mkCommit 11%N), [object.mkCommit 10%N].
    split; reflexivity.
  - reflexivity.
  - reflexivity.
  - reflexivity.
Defined.

(** ** The describer *)

Lemma GitDescribe_done (p : Process) (g : Globals) :
  onceGitDescribe (snd (GitDescribe p g)) = true.
Proof.
  unfold GitDescribe, Do. simpl.
  destruct (onceGitDescribe g) eqn:Hdone; [exact Hdone | reflexivity].
Qed.

(** Once the computation has run, a call reads the two variables and
    leaves everything as it is. *)
Lemma GitDescribe_again (p : Process) (g : Globals) :
  onceGitDescribe g = true ->
  GitDescribe p g =
  ((cachedGitDescription g, cachedGitDescriptionError g), g).
Proof. intros Hdone. unfold GitDescribe, Do. now rewrite Hdone. Qed.

Lemma calls_again (ps : list Process) (g : Globals) :
  onceGitDescribe g = true ->
  Forall (fun result =>
            result = (cachedGitDescription g, cachedGitDescriptionError g))
         (fst (calls ps g)) /\
  snd (calls ps g) = g.
Proof.
  intros Hdone. induction ps as [| p ps [IHres IHg]]; cbn [calls].
  - split; [constructor | reflexivity].
  - rewrite (GitDescribe_again p g Hdone).
    destruct (calls ps g) as [results g'']. simpl in *.
    split; [constructor; [reflexivity | exact IHres] | exact IHg].
Qed.

Lemma computeDescription_runs (p : Process) (g : Globals) :
  runs (computeDescription p g) = S (runs g).
Proof.
  unfold computeDescription.
  destruct (PlainOpen p ".") as [| repo]; [reflexivity |].
  destruct (git.Head repo) as [| head]; [reflexivity |].
  destruct (describe repo head); reflexivity.
Qed.

(** C7. Whatever the process finds at each call, every call of
    GitDescribe after a first one returns the description and the error
    that the first one returned, a failure included, and the computation
    runs at most once over all the calls: exactly once when it had not
    run before the first call. *)
Theorem GitDescribe_cached (p : Process) (later : list Process)
    (g : Globals) :
  let first := GitDescribe p g in
  let after := calls later (snd first) in
  Forall (fun result => result = fst first) (fst after) /\
  (runs (snd after) <= S (runs g))%nat /\
  (onceGitDescribe g = false -> runs (snd after) = S (runs g)).
Proof.
  intros first after.
  destruct (calls_again later (snd first) (GitDescribe_done p g))
    as [Hres Hg].
  fold after in Hres, Hg. split; [exact Hres |].
  rewrite Hg. unfold first, GitDescribe, Do. simpl.
  destruct (onceGitDescribe g); simpl.
  - split; [lia | discriminate].
  - rewrite computeDescription_runs. split; [lia | reflexivity].
Qed.

(** A process that finds no repository at its first call and the tagged
    repository afterwards: the later calls return the error of the first
    and the computation has run once. *)
Example failure_is_cached :
  let nowhere :=
    mkProcess (fun _ => inl (errorString "repository does not exist")) in
  let here := mkProcess (fun _ => inr taggedRepo) in
  calls [nowhere; here; here] startGlobals =
  (repeat (None, Some (errorString "repository does not exist")) 3,
   mkGlobals true None (Some (errorString "repository does not exist")) 1).
Proof. reflexivity. Qed.

(** ** The archive builder: what it refuses *)

(** C8. When the description has no tag, NewGitArchive returns the error
    "no tag found to create archive from"; when it has a tag and the
    distance is greater than 0, the error "tag <name> must also be HEAD"
    with the name of the tag. In both cases it returns no builder, and
    it has no writer to write to. *)
Theorem NewGitArchive_refuses (prefix : string) (p : Process) (g g' : Globals)
    (gd : GitDescription) :
  GitDescribe p g = ((Some gd, None), g') ->
  (tag gd = None ->
   NewGitArchive prefix p g =
   (Returned (inl (Errorf "no tag found to create archive from" [])), g')) /\
  (forall t, tag gd = Some t -> n gd > 0 ->
   NewGitArchive prefix p g =
   (Returned (inl (Errorf "tag %s must also be HEAD"
                          [opString (object.Name t)])), g')).
Proof.
  intros Hdescribe. unfold NewGitArchive. rewrite Hdescribe. split.
  - intros ->. reflexivity.
  - intros t -> Hn.
    assert (Hgt : (n gd >? 0) = true) by (apply Z.gtb_lt; lia).
    now rewrite Hgt.
Qed.

Lemma NewGitArchive_refuses_witness :
  NewGitArchive "proj-1.0" (mkProcess (fun _ => inr taggedRepo)) startGlobals =
  (Returned (inl (Errorf "tag %s must also be HEAD" [opString "v1.2.3"])),
   mkGlobals true (Some (past "v1.2.3" 2)) None 1).
Proof.
  destruct (NewGitArchive_refuses "proj-1.0"
              (mkProcess (fun _ => inr taggedRepo)) startGlobals
              (mkGlobals true (Some (past "v1.2.3" 2)) None 1)
              (past "v1.2.3" 2) eq_refl) as [_ Hpast].
  exact (Hpast (tagNamed "v1.2.3") eq_refl eq_refl).
Defined.

(** ** The archive builder: what reaches the writers *)

Lemma adds_ret {A : Type} (P : Event -> Prop) (a : A) : adds P (ret a).
Proof. intros tr. exists []. now rewrite app_nil_r. Qed.

Lemma adds_bind {A B : Type} (P : Event -> Prop) (c : IO A)
    (k : A -> IO B) :
  adds P c -> (forall a, adds P (k a)) -> adds P (bind c k).
Proof.
  intros Hc Hk tr. unfold bind.
  destruct (Hc tr) as (mid1 & Heq1 & HP1).
  destruct (c tr) as [a tr1]. simpl in Heq1. subst tr1.
  destruct (Hk a (tr ++ mid1)) as (mid2 & Heq2 & HP2).
  exists (mid1 ++ mid2). rewrite Heq2, app_assoc.
  split; [reflexivity | now apply Forall_app].
Qed.

Lemma adds_perform (P : Event -> Prop) (os : OS) (e : Event) :
  P e -> adds P (perform os e).
Proof. intros He tr. exists [e]. split; [reflexivity | now constructor]. Qed.

Lemma adds_Copy (os : OS) (wr : string -> Event) (file : File) :
  (forall data, entryEvent (wr data)) -> adds entryEvent (Copy os wr file).
Proof.
  intros Hwr. unfold Copy. apply adds_bind; [| intros err].
  - apply adds_perform. apply Hwr.
  - destruct err; apply adds_ret.
Qed.

Lemma adds_addEntryToTar (os : OS) (prefix path : string) :
  adds entryEvent (addEntryToTar os prefix path).
Proof.
  unfold addEntryToTar.
  destruct (Stat os path) as [| fi]; [apply adds_ret |].
  destruct (if IsSymlink fi then Readlink os path else inr EmptyString)
    as [| link]; [apply adds_ret |].
  destruct (tarFileInfoHeader os fi link) as [| header]; [apply adds_ret |].
  apply adds_bind; [apply adds_perform; exact I | intros err].
  destruct err; [apply adds_ret |].
  destruct (IsRegular fi); [| apply adds_ret].
  destruct (Open os path) as [| file]; [apply adds_ret |].
  apply adds_bind; [apply adds_Copy; intros; exact I | intros err].
  destruct err; apply adds_ret.
Qed.

Lemma adds_addEntryToZip (os : OS) (prefix path : string) :
  adds entryEvent (addEntryToZip os prefix path).
Proof.
  unfold addEntryToZip.
  destruct (Stat os path) as [| fi]; [apply adds_ret |].
  destruct (zipFileInfoHeader os fi) as [| header]; [apply adds_ret |].
  apply adds_bind; [apply adds_perform; exact I | intros err].
  destruct err; [apply adds_ret |].
  destruct (IsRegular fi).
  - destruct (Open os path) as [| file]; [apply adds_ret |].
    apply adds_bind; [apply adds_Copy; intros; exact I | intros err].
    destruct err; apply adds_ret.
  - destruct (if IsSymlink fi then Readlink os path else inr EmptyString)
      as [| data]; [apply adds_ret |].
    apply adds_bind; [apply adds_perform; exact I | intros err].
    destruct err; apply adds_ret.
Qed.

Lemma adds_addEntries (add : string -> IO (option error)) (format : string)
    (entries : list string) :
  (forall entry, adds entryEvent (add entry)) ->
  adds entryEvent (addEntries add format entries).
Proof.
  intros Hadd. induction entries as [| entry entries IH]; simpl.
  - apply adds_ret.
  - apply adds_bind; [apply Hadd | intros err].
    destruct err; [apply adds_ret | exact IH].
Qed.

(** On every path createTgzArchive ends with the close of the tar
    writer followed by the close of the gzip writer, and closes neither
    before. *)
Lemma createTgzArchive_closes (os : OS) (ga : GitArchive)
    (extraFiles : list string) (tr : list Event) :
  exists mid,
    snd (createTgzArchive os ga extraFiles tr) =
    tr ++ mid ++ [TarClose; GzipClose] /\
    Forall entryEvent mid.
Proof.
  unfold createTgzArchive, bind.
  destruct (adds_addEntries (addEntryToTar os (prefix ga))
              "while adding file %s to tar archive: %s"
              (ListEntries (gd ga) ++ extraFiles)
              (adds_addEntryToTar os (prefix ga)) tr) as (mid & Heq & HP).
  destruct (addEntries _ _ _ tr) as [result tr1]. simpl in Heq. subst tr1.
  exists mid. split; [| exact HP].
  unfold perform, ret. simpl. now rewrite <- !app_assoc.
Qed.

(** When every entry is added, createZipArchive ends with the close of
    the zip writer. *)
Lemma createZipArchive_closes (os : OS) (ga : GitArchive)
    (extraFiles : list string) (tr : list Event) :
  fst (addEntries (addEntryToZip os (prefix ga))
         "while adding file %s to zip archive: %s"
         (ListEntries (gd ga) ++ extraFiles) tr) = None ->
  exists mid,
    snd (createZipArchive os ga extraFiles tr) = tr ++ mid ++ [ZipClose] /\
    Forall entryEvent mid.
Proof.
  intros Hok. unfold createZipArchive, bind.
  destruct (adds_addEntries (addEntryToZip os (prefix ga))
              "while adding file %s to zip archive: %s"
              (ListEntries (gd ga) ++ extraFiles)
              (adds_addEntryToZip os (prefix ga)) tr) as (mid & Heq & HP).
  destruct (addEntries _ _ _ tr) as [result tr1]. simpl in Heq, Hok.
  subst tr1 result. exists mid. split; [| exact HP].
  unfold perform. simpl. now rewrite <- app_assoc.
Qed.

(** When an entry fails, createZipArchive returns the error of the
    entry and the zip writer is not closed. *)
Lemma createZipArchive_fails_open (os : OS) (ga : GitArchive)
    (extraFiles : list string) (tr : list Event) (err : error) :
  fst (addEntries (addEntryToZip os (prefix ga))
         "while adding file %s to zip archive: %s"
         (ListEntries (gd ga) ++ extraFiles) tr) = Some err ->
  fst (createZipArchive os ga extraFiles tr) = Some err /\
  exists mid,
    snd (createZipArchive os ga extraFiles tr) = tr ++ mid /\
    Forall entryEvent mid.
Proof.
  intros Hfail. unfold createZipArchive, bind.
  destruct (adds_addEntries (addEntryToZip os (prefix ga))
              "while adding file %s to zip archive: %s"
              (ListEntries (gd ga) ++ extraFiles)
              (adds_addEntryToZip os (prefix ga)) tr) as (mid & Heq & HP).
  destruct (addEntries _ _ _ tr) as [result tr1]. simpl in Heq, Hfail.
  subst tr1 result. simpl. split; [reflexivity |]. now exists mid.
Qed.

(** C9. With an extra file that does not exist, createZipArchive returns
    the error of that entry after the entries before it were written,
    and the zip writer is never closed; createTgzArchive, on the same
    input, closes the tar writer and then the gzip writer. *)
Theorem createZipArchive_not_closed_on_failure :
  createZipArchive workdir release ["missing"] [] =
  (Some (Errorf "while adding file %s to zip archive: %s"
           [opString "missing";
            opError
              (Errorf "while getting information for file %s: %s"
                 [opString "missing";
                  opError (errorString
                             "stat missing: no such file or directory")])]),
   [ZipCreateHeader (mkZipHeader "proj-1.0/a.txt" Deflate);
    ZipWrite "contents of a.txt";
    ZipCreateHeader (mkZipHeader "proj-1.0/dir/" Deflate);
    ZipWrite EmptyString;
    ZipCreateHeader (mkZipHeader "proj-1.0/dir/b.txt" Deflate);
    ZipWrite "contents of dir/b.txt"]) /\
  snd (createTgzArchive workdir release ["missing"] []) =
  [TarWriteHeader (mkTarHeader "proj-1.0/a.txt" EmptyString);
   TarWrite "contents of a.txt";
   TarWriteHeader (mkTarHeader "proj-1.0/dir/" EmptyString);
   TarWriteHeader (mkTarHeader "proj-1.0/dir/b.txt" EmptyString);
   TarWrite "contents of dir/b.txt";
   TarClose; GzipClose].
Proof. split; vm_compute; reflexivity. Qed.

(** C10. For a format that is neither TgzArchive nor ZipArchive, Create
    returns nil and performs no operation on any writer, so nothing
    reaches the output sink. *)
Theorem Create_unknown_format (os : OS) (ga : GitArchive)
    (format : ArchiveFormat) (extraFiles : list string) (tr : list Event) :
  format <> TgzArchive -> format <> ZipArchive ->
  Create os ga format extraFiles tr = (None, tr).
Proof.
  intros Htgz Hzip. unfold Create.
  destruct (Z.eqb_spec format TgzArchive) as [Heq | _]; [contradiction |].
  destruct (Z.eqb_spec format ZipArchive) as [Heq | _]; [contradiction |].
  reflexivity.
Qed.

Lemma Create_unknown_format_witness :
  Create workdir release 2 ["missing"] [] = (None, []).
Proof.
  apply (Create_unknown_format workdir release 2 ["missing"] []);
    discriminate.
Defined.

(** * Further properties *)

(** ** GetSemver *)

Lemma GetSemver_past (gd : GitDescription) (t : object.Tag) (s : string)
    (v : semver.Version) :
  tag gd = Some t -> slice_from (object.Name t) 1 = Some s ->
  semver.Parse s = inr v -> n gd > 0 ->
  GetSemver gd =
  Returned (inr
    match semver.Pre v with
    | [] => nextPatch gd v (wrap64 (semver.Patch v + 1))
    | _ :: _ =>
        semver.mkVersion (semver.Major v) (semver.Minor v) (semver.Patch v)
          (semver.Pre v ++ [devel (n gd)]) (semver.Build v)
    end).
Proof.
  intros Htag Hname Hparse Hn.
  assert (Hgt : (n gd >? 0) = true) by (apply Z.gtb_lt; lia).
  unfold GetSemver. rewrite Htag, Hname, Hparse, Hgt.
  destruct (semver.Pre v) eqn:Hpre; [reflexivity |].
  rewrite Hpre. reflexivity.
Qed.

(** X1. For two distances greater than 0 past the same tag, [Compare]
    orders the two versions of GetSemver as the decimal writings of the
    distances are ordered as strings of bytes. *)
Theorem GetSemver_orders_by_text (t : object.Tag) (s : string)
    (v : semver.Version) (clean1 clean2 : bool) (r1 r2 : plumbing.Reference)
    (d1 d2 : Z) :
  slice_from (object.Name t) 1 = Some s -> semver.Parse s = inr v ->
  d1 > 0 -> d2 > 0 ->
  exists v1 v2,
    GetSemver (mkGitDescription clean1 r1 (Some t) d1) = Returned (inr v1) /\
    GetSemver (mkGitDescription clean2 r2 (Some t) d2) = Returned (inr v2) /\
    semver.Compare v1 v2 = sign (String.compare (fmtUint d1) (fmtUint d2)).
Proof.
  intros Hname Hparse H1 H2.
  destruct (GetSemver_order t s v clean1 clean2 r1 r2 d1 d2 Hname Hparse H1 H2)
    as (v1 & v2 & Hv1 & Hv2 & Hcmp).
  exists v1, v2. split; [exact Hv1 |]. split; [exact Hv2 |].
  rewrite Hcmp. destruct (String.compare (fmtUint d1) (fmtUint d2));
    reflexivity.
Qed.

Lemma GetSemver_orders_by_text_witness :
  exists v1 v2,
    GetSemver (past "v1.2.3" 2) = Returned (inr v1) /\
    GetSemver (past "v1.2.3" 10) = Returned (inr v2) /\
    semver.Compare v1 v2 = 1.
Proof.
  exact (GetSemver_orders_by_text (tagNamed "v1.2.3") "1.2.3"
           (semver.mkVersion 1 2 3 [] []) true true masterRef masterRef 2 10
           eq_refl eq_refl eq_refl eq_refl).
Defined.

(** X2. Past a tag that has a pre-release part, GetSemver keeps major,
    minor, patch and build metadata of the tag and appends the one
    identifier [devel.<distance>] to the pre-release part of the tag. *)
Theorem GetSemver_prerelease_tag (gd : GitDescription) (t : object.Tag)
    (s : string) (v : semver.Version) :
  tag gd = Some t -> slice_from (object.Name t) 1 = Some s ->
  semver.Parse s = inr v -> semver.Pre v <> [] -> n gd > 0 ->
  GetSemver gd =
  Returned (inr (semver.mkVersion (semver.Major v) (semver.Minor v)
                   (semver.Patch v) (semver.Pre v ++ [devel (n gd)])
                   (semver.Build v))).
Proof.
  intros Htag Hname Hparse Hpre Hn.
  rewrite (GetSemver_past gd t s v Htag Hname Hparse Hn).
  destruct (semver.Pre v); [contradiction | reflexivity].
Qed.

Lemma GetSemver_prerelease_tag_witness :
  GetSemver (past "v0.1.2-alpha.1" 3) =
  Returned (inr (semver.mkVersion 0 1 2
                   [semver.mkPRVersion "alpha" 0 false;
                    semver.mkPRVersion "" 1 true;
                    semver.mkPRVersion "devel.3" 0 false] [])).
Proof.
  apply (GetSemver_prerelease_tag (past "v0.1.2-alpha.1" 3)
           (tagNamed "v0.1.2-alpha.1") "0.1.2-alpha.1"
           (semver.mkVersion 0 1 2
              [semver.mkPRVersion "alpha" 0 false;
               semver.mkPRVersion "" 1 true] []));
    [reflexivity | reflexivity | reflexivity | discriminate | reflexivity].
Defined.

(** A list of identifiers comes before any longer list that starts with
    it. *)
Lemma comparePre_longer (l : list semver.PRVersion) (x : semver.PRVersion)
    (rest : list semver.PRVersion) :
  semver.comparePre l (l ++ x :: rest) = -1.
Proof.
  induction l as [| y l IH]; simpl; [reflexivity |].
  rewrite PRCompare_refl. exact IH.
Qed.

(** X3. A version that GetSemver makes past a tag comes after the
    version of the tag in the order of [Compare], unless the tag has no
    pre-release part and the largest patch number of [uint64]. *)
Theorem GetSemver_after_tag (gd : GitDescription) (t : object.Tag)
    (s : string) (v : semver.Version) :
  tag gd = Some t -> slice_from (object.Name t) 1 = Some s ->
  semver.Parse s = inr v -> n gd > 0 ->
  semver.Pre v <> [] \/ semver.Patch v <> maxUint64 ->
  exists v', GetSemver gd = Returned (inr v') /\ semver.Compare v v' = -1.
Proof.
  intros Htag Hname Hparse Hn Hcase.
  rewrite (GetSemver_past gd t s v Htag Hname Hparse Hn).
  eexists. split; [reflexivity |].
  pose proof (Parse_patch_range s v Hparse) as Hrange.
  destruct v as [major minor patch pre build]. simpl in *.
  destruct pre as [| x pre].
  - destruct Hcase as [Hpre | Hpatch]; [contradiction |].
    unfold semver.Compare, nextPatch. simpl. rewrite !Z.eqb_refl. simpl.
    unfold wrap64. rewrite Z.mod_small by (unfold maxUint64 in *; lia).
    destruct (Z.eqb_spec patch (patch + 1)) as [Heq | _]; [lia |]. simpl.
    destruct (Z.gtb_spec patch (patch + 1)) as [Hgt | _]; [lia |].
    reflexivity.
  - unfold semver.Compare. simpl. rewrite !Z.eqb_refl. simpl.
    rewrite PRCompare_refl. simpl.
    apply (comparePre_longer pre (devel (n gd)) []).
Qed.

Lemma GetSemver_after_tag_witness :
  exists v',
    GetSemver (past "v1.2.3" 5) = Returned (inr v') /\
    semver.Compare (semver.mkVersion 1 2 3 [] []) v' = -1.
Proof.
  apply (GetSemver_after_tag (past "v1.2.3" 5) (tagNamed "v1.2.3") "1.2.3"
           (semver.mkVersion 1 2 3 [] []));
    [reflexivity | reflexivity | reflexivity | reflexivity |].
  right. discriminate.
Defined.

(** X4. Past a tag without pre-release part whose patch number is not
    the largest of [uint64], the version of GetSemver comes before the
    release of the next patch, whatever the build metadata of that
    release. *)
Theorem GetSemver_before_next_patch (gd : GitDescription) (t : object.Tag)
    (s : string) (v : semver.Version) :
  tag gd = Some t -> slice_from (object.Name t) 1 = Some s ->
  semver.Parse s = inr v -> semver.Pre v = [] -> n gd > 0 ->
  semver.Patch v <> maxUint64 ->
  exists v',
    GetSemver gd = Returned (inr v') /\
    forall build,
      semver.Compare v'
        (semver.mkVersion (semver.Major v) (semver.Minor v)
           (semver.Patch v + 1) [] build) = -1.
Proof.
  intros Htag Hname Hparse Hpre Hn Hpatch.
  rewrite (GetSemver_past gd t s v Htag Hname Hparse Hn), Hpre.
  eexists. split; [reflexivity |]. intros build.
  pose proof (Parse_patch_range s v Hparse) as Hrange.
  unfold semver.Compare, nextPatch. simpl. rewrite !Z.eqb_refl. simpl.
  unfold wrap64. rewrite Z.mod_small by (unfold maxUint64 in *; lia).
  rewrite Z.eqb_refl. reflexivity.
Qed.

Lemma GetSemver_before_next_patch_witness :
  exists v',
    GetSemver (past "v1.2.3" 5) = Returned (inr v') /\
    forall build,
      semver.Compare v' (semver.mkVersion 1 2 4 [] build) = -1.
Proof.
  apply (GetSemver_before_next_patch (past "v1.2.3" 5) (tagNamed "v1.2.3")
           "1.2.3" (semver.mkVersion 1 2 3 [] []));
    [reflexivity | reflexivity | reflexivity | reflexivity | reflexivity |
     discriminate].
Defined.

(** X5. Past a tag without pre-release part, the first identifier of the
    result is the one string [alpha.<patch>], which comes after the
    identifier [alpha]: the version of GetSemver comes after every
    version of the same major, minor and patch whose pre-release part
    starts with the identifier [alpha], such as the alpha.1 of the next
    patch. *)
Theorem GetSemver_after_alpha (gd : GitDescription) (t : object.Tag)
    (s : string) (v : semver.Version) :
  tag gd = Some t -> slice_from (object.Name t) 1 = Some s ->
  semver.Parse s = inr v -> semver.Pre v = [] -> n gd > 0 ->
  exists v',
    GetSemver gd = Returned (inr v') /\
    forall rest build,
      semver.Compare v'
        (semver.mkVersion (semver.Major v') (semver.Minor v')
           (semver.Patch v')
           (semver.mkPRVersion "alpha" 0 false :: rest) build) = 1.
Proof.
  intros Htag Hname Hparse Hpre Hn.
  rewrite (GetSemver_past gd t s v Htag Hname Hparse Hn), Hpre.
  eexists. split; [reflexivity |]. intros rest build.
  unfold semver.Compare, nextPatch. simpl. rewrite !Z.eqb_refl. reflexivity.
Qed.

Lemma GetSemver_after_alpha_witness :
  exists v',
    GetSemver (past "v1.2.3" 5) = Returned (inr v') /\
    forall rest build,
      semver.Compare v'
        (semver.mkVersion (semver.Major v') (semver.Minor v')
           (semver.Patch v')
           (semver.mkPRVersion "alpha" 0 false :: rest) build) = 1.
Proof.
  apply (GetSemver_after_alpha (past "v1.2.3" 5) (tagNamed "v1.2.3")
           "1.2.3" (semver.mkVersion 1 2 3 [] []));
    reflexivity.
Defined.

Lemma slice_from_zero (s : string) : slice_from s 0 = Some s.
Proof. destruct s; reflexivity. Qed.

(** X6. GetSemver panics exactly when the description has a tag whose
    name is empty; the distance plays no part. *)
Theorem GetSemver_panics_on_empty_name (gd : GitDescription) :
  (exists reason, GetSemver gd = Panicked reason) <->
  (exists t, tag gd = Some t /\ object.Name t = EmptyString).
Proof.
  unfold GetSemver. split.
  - intros [reason Hpanic].
    destruct (tag gd) as [t |]; [| discriminate].
    exists t. split; [reflexivity |].
    destruct (object.Name t) as [| c name]; [reflexivity |].
    cbn [slice_from] in Hpanic. rewrite slice_from_zero in Hpanic.
    destruct (semver.Parse name); [discriminate |].
    destruct (n gd >? 0); discriminate.
  - intros (t & -> & ->). eexists. reflexivity.
Qed.

(** X7. The identifier that GetSemver appends for a distance greater
    than 0 is the last of the pre-release part, and it is one that the
    constructor of the library refuses, for the dot it holds. *)
Theorem GetSemver_appends_refused_identifier (gd : GitDescription)
    (t : object.Tag) (s : string) (v : semver.Version) :
  tag gd = Some t -> slice_from (object.Name t) 1 = Some s ->
  semver.Parse s = inr v -> n gd > 0 ->
  exists v' before,
    GetSemver gd = Returned (inr v') /\
    semver.Pre v' = before ++ [devel (n gd)] /\
    semver.NewPRVersion (semver.VersionStr (devel (n gd))) =
    inl (Errorf "Invalid character(s) found in prerelease %q"
                [opString (semver.VersionStr (devel (n gd)))]).
Proof.
  intros Htag Hname Hparse Hn.
  rewrite (GetSemver_past gd t s v Htag Hname Hparse Hn).
  destruct (semver.Pre v) as [| x pre] eqn:Hpre.
  - eexists. exists [semver.mkPRVersion
                       ("alpha." +:+ fmtUint (wrap64 (semver.Patch v + 1)))
                       0 false].
    split; [reflexivity |]. split; reflexivity.
  - eexists. exists (x :: pre).
    split; [reflexivity |]. split; reflexivity.
Qed.

Lemma GetSemver_appends_refused_identifier_witness :
  exists v' before,
    GetSemver (past "v1.2.3" 5) = Returned (inr v') /\
    semver.Pre v' = before ++ [devel 5] /\
    semver.NewPRVersion (semver.VersionStr (devel 5)) =
    inl (Errorf "Invalid character(s) found in prerelease %q"
                [opString (semver.VersionStr (devel 5))]).
Proof.
  apply (GetSemver_appends_refused_identifier (past "v1.2.3" 5)
           (tagNamed "v1.2.3") "1.2.3" (semver.mkVersion 1 2 3 [] []));
    reflexivity.
Defined.

(** ** getVersionTags *)

(** X8. Every entry of the map that getVersionTags returns, with or
    without an error beside it, is a tag object under the hash of its
    own target. *)
Theorem getVersionTags_keys_are_targets (r : git.Repository)
    (h : plumbing.Hash) (t : object.Tag) :
  fst (getVersionTags r) !! h = Some t -> object.Target t = h.
Proof. apply getVersionTags_keyed. Qed.

Lemma getVersionTags_keys_are_targets_witness :
  object.Target (tagNamed "v1.2.3") = 11%N.
Proof.
  apply (getVersionTags_keys_are_targets taggedRepo 11%N (tagNamed "v1.2.3")).
  reflexivity.
Defined.

Lemma selected_app (r : git.Repository) (a b : list plumbing.Reference)
    (tags : gmap plumbing.Hash object.Tag) :
  selected r (a ++ b) tags = selected r b (selected r a tags).
Proof. unfold selected. apply foldl_app. Qed.

Lemma selected_cons (r : git.Repository) (x : plumbing.Reference)
    (refs : list plumbing.Reference) (tags : gmap plumbing.Hash object.Tag) :
  selected r (x :: refs) tags =
  selected r refs
    (if semverNamed x then
       match git.TagObject r (plumbing.RefHash x) with
       | inr t => <[object.Target t := t]> tags
       | inl _ => tags
       end
     else tags).
Proof. reflexivity. Qed.

(** References whose tags have other targets leave the entry of a hash
    as it is. *)
Lemma selected_untouched (r : git.Repository)
    (refs : list plumbing.Reference) (tags : gmap plumbing.Hash object.Tag)
    (h : plumbing.Hash) :
  (forall ref t, ref ∈ refs -> semverNamed ref = true ->
     git.TagObject r (plumbing.RefHash ref) = inr t ->
     object.Target t <> h) ->
  selected r refs tags !! h = tags !! h.
Proof.
  revert tags. induction refs as [| x refs IH]; intros tags Hother;
    [reflexivity |].
  rewrite selected_cons, IH.
  - destruct (semverNamed x) eqn:Hnamed; [| reflexivity].
    destruct (git.TagObject r (plumbing.RefHash x)) as [| t] eqn:Ht;
      [reflexivity |].
    apply lookup_insert_ne.
    exact (Hother x t (list_elem_of_here _ _) Hnamed Ht).
  - intros ref t Hin. apply Hother. now apply list_elem_of_further.
Qed.

(** X9. When the references are listed to the end and every semver-named
    one resolves, the entry of a commit is the tag object of the last
    semver-named reference whose tag object has that commit as target:
    a later tag on a commit replaces an earlier one. *)
Theorem getVersionTags_last_wins (r : git.Repository)
    (pre : list plumbing.Reference) (ref : plumbing.Reference)
    (post : list plumbing.Reference) (t : object.Tag) :
  git.Tags r = inr (storer.mkIter (pre ++ ref :: post) None) ->
  resolvable r (pre ++ ref :: post) ->
  semverNamed ref = true ->
  git.TagObject r (plumbing.RefHash ref) = inr t ->
  (forall ref' t', ref' ∈ post -> semverNamed ref' = true ->
     git.TagObject r (plumbing.RefHash ref') = inr t' ->
     object.Target t' <> object.Target t) ->
  exists tags,
    getVersionTags r = (tags, None) /\ tags !! object.Target t = Some t.
Proof.
  intros Htags Hres Hnamed Ht Hpost.
  exists (selected r (pre ++ ref :: post) ∅). split.
  - unfold getVersionTags, storer.ForEach. rewrite Htags.
    cbn [storer.yielded storer.final].
    pose proof (forEach_selectTag_app r (pre ++ ref :: post) [] None ∅ Hres)
      as Hloop.
    rewrite app_nil_r in Hloop. now rewrite Hloop.
  - rewrite selected_app. change (ref :: post) with ([ref] ++ post).
    rewrite selected_app, (selected_untouched r post _ _ Hpost).
    rewrite selected_cons, Hnamed, Ht. apply lookup_insert_eq.
Qed.

Lemma getVersionTags_last_wins_witness :
  exists tags,
    getVersionTags retaggedRepo = (tags, None) /\
    tags !! 11%N = Some (tagNamed "v1.2.4").
Proof.
  apply (getVersionTags_last_wins retaggedRepo
           [plumbing.mkReference "v1.2.3" 21%N]
           (plumbing.mkReference "v1.2.4" 22%N) [] (tagNamed "v1.2.4"));
    [reflexivity | | reflexivity | reflexivity |].
  - intros ref Hin Hnamed.
    apply elem_of_cons in Hin as [-> | Hin]; [eexists; reflexivity |].
    apply elem_of_cons in Hin as [-> | Hin]; [eexists; reflexivity |].
    now apply elem_of_nil in Hin.
  - intros ref' t' Hin. now apply elem_of_nil in Hin.
Defined.

(** The error of the first lookup that fails ends the selection. *)
Lemma getVersionTags_unresolved (r : git.Repository)
    (pre : list plumbing.Reference) (ref : plumbing.Reference)
    (post : list plumbing.Reference) (fin : option error) (err : error) :
  git.Tags r = inr (storer.mkIter (pre ++ ref :: post) fin) ->
  resolvable r pre -> semverNamed ref = true ->
  git.TagObject r (plumbing.RefHash ref) = inl err -> err <> ErrStop ->
  getVersionTags r = (selected r pre ∅, Some err).
Proof.
  intros Htags Hres Hnamed Ht Hstop.
  unfold getVersionTags, storer.ForEach. rewrite Htags.
  cbn [storer.yielded storer.final].
  rewrite (forEach_selectTag_app r pre (ref :: post) fin ∅ Hres).
  cbn [storer.forEach]. rewrite (selectTag_named r _ _ Hnamed), Ht.
  destruct err; try reflexivity. now contradiction Hstop.
Qed.

(** ** describe *)

(** X10. When the work tree and its status are read and the lookup of a
    semver-named reference fails, as for a lightweight tag, describe
    returns that error wrapped as "version tag: %s", whatever reference
    is described and whatever the history is. *)
Theorem describe_fails_on_unresolved_tag (r : git.Repository)
    (described : plumbing.Reference) (w : git.Worktree) (clean : bool)
    (pre : list plumbing.Reference) (ref : plumbing.Reference)
    (post : list plumbing.Reference) (fin : option error) (err : error) :
  git.GetWorktree r = inr w -> git.Status w = inr clean ->
  git.Tags r = inr (storer.mkIter (pre ++ ref :: post) fin) ->
  resolvable r pre -> semverNamed ref = true ->
  git.TagObject r (plumbing.RefHash ref) = inl err -> err <> ErrStop ->
  describe r described = inl (Errorf "version tag: %s" [opError err]).
Proof.
  intros Hw Hstatus Htags Hres Hnamed Ht Hstop. unfold describe.
  rewrite Hw, Hstatus.
  now rewrite (getVersionTags_unresolved r pre ref post fin err).
Qed.

Lemma describe_fails_on_unresolved_tag_witness :
  describe lightweightRepo masterRef =
  inl (Errorf "version tag: %s" [opError ErrObjectNotFound]).
Proof.
  apply (describe_fails_on_unresolved_tag lightweightRepo masterRef
           (git.mkWorktree (inr true)) true
           [plumbing.mkReference "v1.2.3" 21%N]
           (plumbing.mkReference "v2.0.0" 13%N) [] None);
    [reflexivity | reflexivity | reflexivity | | reflexivity | reflexivity |
     discriminate].
  intros ref Hin Hnamed.
  apply elem_of_cons in Hin as [-> | Hin]; [eexists; reflexivity |].
  now apply elem_of_nil in Hin.
Defined.

Lemma visit_tagged (tags : gmap plumbing.Hash object.Tag)
    (c : object.Commit) (gd : GitDescription) (t : object.Tag) :
  tags !! object.Hash c = Some t ->
  visit tags c gd =
  (Some ErrStop, mkGitDescription (isClean gd) (ref gd) (Some t) (n gd)).
Proof. intros Hc. unfold visit. now rewrite Hc. Qed.

Lemma visit_untagged (tags : gmap plumbing.Hash object.Tag)
    (c : object.Commit) (gd : GitDescription) :
  tags !! object.Hash c = None ->
  visit tags c gd =
  (None,
   mkGitDescription (isClean gd) (ref gd) (tag gd) (wrap64 (n gd + 1))).
Proof. intros Hc. unfold visit. now rewrite Hc. Qed.

(** The walk leaves the cleanliness and the reference as they are and
    keeps the distance within [uint64]. *)
Lemma forEach_visit_keeps (tags : gmap plumbing.Hash object.Tag)
    (cs : list object.Commit) (fin : option error) (gd0 : GitDescription) :
  let gd := snd (storer.forEach (visit tags) cs fin gd0) in
  isClean gd = isClean gd0 /\ ref gd = ref gd0 /\
  (0 <= n gd0 < 2 ^ 64 -> 0 <= n gd < 2 ^ 64).
Proof.
  revert gd0. induction cs as [| c cs IH]; intros gd0;
    cbn [storer.forEach].
  - cbn [snd]. split; [reflexivity |]. split; [reflexivity | tauto].
  - destruct (tags !! object.Hash c) as [t |] eqn:Hc.
    + rewrite (visit_tagged tags c gd0 t Hc).
      cbn [snd isClean ref n]. split; [reflexivity |].
      split; [reflexivity | tauto].
    + rewrite (visit_untagged tags c gd0 Hc).
      destruct (IH (mkGitDescription (isClean gd0) (ref gd0) (tag gd0)
                      (wrap64 (n gd0 + 1)))) as (Hclean & Href & Hn).
      cbn [isClean ref n] in Hclean, Href, Hn.
      split; [exact Hclean |]. split; [exact Href |].
      intros _. apply Hn. unfold wrap64. apply Z.mod_pos_bound. lia.
Qed.

(** The fields of a description that describe returns. *)
Lemma describe_fields (r : git.Repository)
    (described : plumbing.Reference) (gd : GitDescription) :
  describe r described = inr gd ->
  ref gd = described /\ 0 <= n gd < 2 ^ 64 /\
  exists w, git.GetWorktree r = inr w /\ git.Status w = inr (isClean gd).
Proof.
  unfold describe.
  destruct (git.GetWorktree r) as [| w]; [discriminate |].
  destruct (git.Status w) as [| clean] eqn:Hstatus; [discriminate |].
  destruct (getVersionTags r) as [tags [err |]]; [discriminate |].
  destruct (git.Log r _) as [| logIter]; [discriminate |].
  unfold storer.ForEach.
  pose proof (forEach_visit_keeps tags (storer.yielded logIter)
                (storer.final logIter)
                (mkGitDescription clean described None 0)) as Hkeeps.
  destruct (storer.forEach (visit tags) (storer.yielded logIter)
              (storer.final logIter)
              (mkGitDescription clean described None 0)) as [[err |] gd'];
    [discriminate |].
  intros Heq. injection Heq as <-. cbn [snd isClean ref n] in Hkeeps.
  destruct Hkeeps as (Hclean & Href & Hn).
  split; [exact Href |]. split; [apply Hn; lia |].
  exists w. split; [reflexivity |]. now rewrite Hclean.
Qed.

(** X11. A description that describe returns is of the reference it was
    asked to describe, carries the cleanliness that the status of the
    work tree reports, and has a distance within [uint64]. *)
Theorem describe_describes (r : git.Repository)
    (described : plumbing.Reference) (gd : GitDescription) :
  describe r described = inr gd ->
  ref gd = described /\ 0 <= n gd < 2 ^ 64 /\
  exists w, git.GetWorktree r = inr w /\ git.Status w = inr (isClean gd).
Proof. apply describe_fields. Qed.

Lemma describe_describes_witness :
  ref (past "v1.2.3" 2) = masterRef /\ 0 <= n (past "v1.2.3" 2) < 2 ^ 64 /\
  exists w,
    git.GetWorktree taggedRepo = inr w /\
    git.Status w = inr (isClean (past "v1.2.3" 2)).
Proof.
  apply (describe_describes taggedRepo masterRef (past "v1.2.3" 2)).
  reflexivity.
Defined.

(** What describe read before the walk, when it returns a
    description. *)
Lemma describe_read (r : git.Repository) (described : plumbing.Reference)
    (gd : GitDescription) :
  describe r described = inr gd ->
  exists w clean tags logIter,
    git.GetWorktree r = inr w /\ git.Status w = inr clean /\
    getVersionTags r = (tags, None) /\
    git.Log r (logOptions described) = inr logIter.
Proof.
  unfold describe.
  destruct (git.GetWorktree r) as [| w]; [discriminate |].
  destruct (git.Status w) as [| clean] eqn:Hstatus; [discriminate |].
  destruct (getVersionTags r) as [tags [err |]]; [discriminate |].
  fold (logOptions described).
  destruct (git.Log r (logOptions described)) as [| logIter];
    [discriminate |].
  intros _. now exists w, clean, tags, logIter.
Qed.

(** X12. When describe returns a description with a tag, and the log
    has fewer than 2^64 commits, the distance is the place in the log of
    the first commit that is a key of the tag mapping, and the tag is
    the entry of that commit and has it as target: no commit before it
    in the log is tagged. *)
Theorem describe_nearest (r : git.Repository)
    (described : plumbing.Reference) (commits : list object.Commit)
    (fin : option error) (gd : GitDescription) (t : object.Tag) :
  git.Log r (logOptions described) = inr (storer.mkIter commits fin) ->
  Z.of_nat (length commits) < 2 ^ 64 ->
  describe r described = inr gd -> tag gd = Some t ->
  exists pre c post,
    commits = pre ++ c :: post /\ Z.of_nat (length pre) = n gd /\
    object.Hash c = object.Target t /\
    fst (getVersionTags r) !! object.Hash c = Some t /\
    untagged (fst (getVersionTags r)) pre.
Proof.
  intros Hlog Hbound Hdescribe Htag.
  destruct (describe_read r described gd Hdescribe)
    as (w & clean & tags & logIter & Hw & Hstatus & Htags & _).
  pose proof (getVersionTags_keyed r) as Hkeyed.
  rewrite Htags in *. cbn [fst] in *.
  destruct (first_tagged tags commits)
    as [(pre & c & post & t0 & Hsplit & Hun & Ht0) | Hun].
  - rewrite (describe_is_walk r described commits fin Hlog w clean tags
               Hw Hstatus Htags) in Hdescribe.
    rewrite Hsplit, (walk_stops tags pre c post t0) in Hdescribe
      by assumption.
    injection Hdescribe as <-. cbn [tag n] in *.
    injection Htag as <-.
    exists pre, c, post. split; [exact Hsplit |].
    assert (Hlen : Z.of_nat (length pre) < 2 ^ 64).
    { rewrite Hsplit, length_app in Hbound. lia. }
    split; [unfold wrap64; rewrite Z.mod_small; lia |].
    split; [symmetry; exact (Hkeyed _ _ Ht0) |].
    split; [exact Ht0 | exact Hun].
  - destruct (describe_untagged r described commits fin Hlog tags gd
                Htags Hun Hdescribe) as [Hnone _].
    rewrite Hnone in Htag. discriminate.
Qed.

Lemma describe_nearest_witness :
  exists pre c post,
    [object.mkCommit 13%N; object.mkCommit 12%N; object.mkCommit 11%N;
     object.mkCommit 10%N] = pre ++ c :: post /\
    Z.of_nat (length pre) = 2 /\
    object.Hash c = 11%N /\
    fst (getVersionTags taggedRepo) !! object.Hash c =
    Some (tagNamed "v1.2.3") /\
    untagged (fst (getVersionTags taggedRepo)) pre.
Proof.
  apply (describe_nearest taggedRepo masterRef _ None (past "v1.2.3" 2)
           (tagNamed "v1.2.3"));
    reflexivity.
Defined.

(** X13. In a repository where tag selection finds no tag, every
    description that describe returns has no tag, and GetSemver on it
    returns the error "no semver tags found". *)
Theorem describe_without_tags (r : git.Repository)
    (described : plumbing.Reference) (gd : GitDescription) :
  getVersionTags r = (∅, None) -> describe r described = inr gd ->
  tag gd = None /\
  GetSemver gd = Returned (inl (errorString "no semver tags found")).
Proof.
  intros Htags Hdescribe.
  destruct (describe_read r described gd Hdescribe)
    as (w & clean & tags & [commits fin] & _ & _ & _ & Hlog).
  assert (Hun : untagged ∅ commits).
  { intros c _. apply lookup_empty. }
  destruct (describe_untagged r described commits fin Hlog ∅ gd Htags Hun
              Hdescribe) as [Hnone _].
  split; [exact Hnone |]. unfold GetSemver. now rewrite Hnone.
Qed.

Lemma describe_without_tags_witness :
  tag (mkGitDescription true masterRef None 4) = None /\
  GetSemver (mkGitDescription true masterRef None 4) =
  Returned (inl (errorString "no semver tags found")).
Proof.
  apply (describe_without_tags untaggedRepo masterRef
           (mkGitDescription true masterRef None 4));
    reflexivity.
Defined.

(** ** GitDescribe and NewGitArchive *)

Lemma settled_start : settled startGlobals.
Proof. reflexivity. Qed.

Lemma GitDescribe_settled (p : Process) (g : Globals) :
  settled g ->
  settled (snd (GitDescribe p g)) /\ oneOf (fst (GitDescribe p g)).
Proof.
  unfold settled, GitDescribe, Do.
  destruct (onceGitDescribe g) eqn:Hdone; cbn [fst snd].
  - rewrite Hdone. intros Hset. split; [exact Hset |].
    destruct Hset as [(gd & -> & -> & _) | (-> & err & ->)].
    + left. now exists gd.
    + right. now exists err.
  - intros Hnone. cbn [onceGitDescribe cachedGitDescription
                       cachedGitDescriptionError].
    unfold computeDescription.
    cbn [onceGitDescribe cachedGitDescription cachedGitDescriptionError
         runs].
    destruct (PlainOpen p ".") as [err | repo].
    { cbn [cachedGitDescription cachedGitDescriptionError]. rewrite Hnone.
      split; [right; split; [reflexivity | now exists err] |].
      right. now exists err. }
    destruct (git.Head repo) as [err | head].
    { cbn [cachedGitDescription cachedGitDescriptionError]. rewrite Hnone.
      split; [right; split; [reflexivity | now exists err] |].
      right. now exists err. }
    destruct (describe repo head) as [err | gd] eqn:Hdescribe;
      cbn [cachedGitDescription cachedGitDescriptionError].
    + split; [right; split; [reflexivity | now exists err] |].
      right. now exists err.
    + destruct (describe_fields repo head gd Hdescribe) as (_ & Hn & _).
      split; [left; now exists gd |]. left. now exists gd.
Qed.

Lemma calls_settled (ps : list Process) (g : Globals) :
  settled g ->
  settled (snd (calls ps g)) /\ Forall oneOf (fst (calls ps g)).
Proof.
  revert g. induction ps as [| p ps IH]; intros g Hset; cbn [calls].
  - split; [exact Hset | constructor].
  - destruct (GitDescribe_settled p g Hset) as [Hset' Hone].
    destruct (GitDescribe p g) as [result g']. cbn [fst snd] in *.
    destruct (IH g' Hset') as [Hset'' Hall].
    destruct (calls ps g') as [results g'']. cbn [fst snd] in *.
    split; [exact Hset'' | now constructor].
Qed.

(** X14. From the start of the process on, every call of GitDescribe
    returns a description and no error, or an error and no description:
    never both and never neither, whatever the process finds at each
    call. *)
Theorem GitDescribe_one_of (ps : list Process) :
  Forall oneOf (fst (calls ps startGlobals)).
Proof. apply calls_settled, settled_start. Qed.

Lemma GitDescribe_range (p : Process) (g : Globals) (d : GitDescription) :
  settled g -> fst (fst (GitDescribe p g)) = Some d -> 0 <= n d < 2 ^ 64.
Proof.
  intros Hset Hd.
  destruct (GitDescribe_settled p g Hset) as [Hset' _].
  pose proof (GitDescribe_done p g) as Hdone.
  unfold settled in Hset'. rewrite Hdone in Hset'.
  change (fst (fst (GitDescribe p g)))
    with (cachedGitDescription (snd (GitDescribe p g))) in Hd.
  destruct Hset' as [(d' & Hd' & _ & Hn) | (Hnone & _)].
  - rewrite Hd in Hd'. now injection Hd' as <-.
  - rewrite Hd in Hnone. discriminate.
Qed.

(** X15. After any calls of GitDescribe from the start of the process,
    NewGitArchive does not panic, and a builder that it returns has the
    prefix it was given and a description with a tag and the distance
    0. *)
Theorem NewGitArchive_builds_at_tag (ps : list Process) (p : Process)
    (dir : string) :
  match fst (NewGitArchive dir p (snd (calls ps startGlobals))) with
  | Panicked _ => False
  | Returned (inl _) => True
  | Returned (inr ga) =>
      prefix ga = dir /\ n (gd ga) = 0 /\ exists t, tag (gd ga) = Some t
  end.
Proof.
  destruct (calls_settled ps startGlobals settled_start) as [Hset _].
  destruct (GitDescribe_settled p _ Hset) as [_ Hone].
  pose proof (fun d => GitDescribe_range p _ d Hset) as Hrange.
  unfold NewGitArchive.
  destruct (GitDescribe p (snd (calls ps startGlobals))) as [result g'].
  cbn [fst snd] in *.
  destruct Hone as [[d ->] | [err ->]]; [| exact I].
  specialize (Hrange d eq_refl).
  destruct (tag d) as [t |] eqn:Htag; [| exact I].
  destruct (Z.gtb_spec (n d) 0) as [| Hle]; [exact I |]. cbn [fst].
  split; [reflexivity |]. cbn [gd]. rewrite Htag.
  split; [lia | now exists t].
Qed.

(** ** The archive builder: one entry *)

Lemma addEntryToTar_ok (os : OS) (dir path : string) (tr : list Event) :
  fst (addEntryToTar os dir path tr) = None ->
  exists m, snd (addEntryToTar os dir path tr) = tr ++ m /\
            tarEntry os dir path m.
Proof.
  unfold addEntryToTar, tarEntry, linkOf, entryName.
  destruct (Stat os path) as [| fi]; [discriminate |].
  destruct (if IsSymlink fi then Readlink os path else inr EmptyString)
    as [| link] eqn:Hlink; [discriminate |].
  destruct (tarFileInfoHeader os fi link) as [| header] eqn:Hheader;
    [discriminate |].
  unfold bind, perform, Copy, bind, perform, ret.
  set (name := if IsDir fi then Join os dir path +:+ "/"
               else Join os dir path).
  destruct (fault os tr (TarWriteHeader (mkTarHeader name (Linkname header))));
    [discriminate |].
  destruct (IsRegular fi) eqn:Hregular.
  - destruct (Open os path) as [| file] eqn:Hopen; [discriminate |].
    destruct (fault os _ (TarWrite (contents file))); [discriminate |].
    destruct (readError file); [discriminate |].
    cbn [fst snd]. intros _.
    eexists. split; [now rewrite <- app_assoc |].
    exists fi, link, header, [TarWrite (contents file)].
    rewrite Hregular. repeat split; try assumption. now exists file.
  - cbn [fst snd]. intros _.
    eexists. split; [reflexivity |].
    exists fi, link, header, []. rewrite Hregular. now repeat split.
Qed.

Lemma addEntryToZip_ok (os : OS) (dir path : string) (tr : list Event) :
  fst (addEntryToZip os dir path tr) = None ->
  exists m, snd (addEntryToZip os dir path tr) = tr ++ m /\
            zipEntry os dir path m.
Proof.
  unfold addEntryToZip, zipEntry, linkOf, entryName.
  destruct (Stat os path) as [| fi]; [discriminate |].
  destruct (zipFileInfoHeader os fi) as [| header]; [discriminate |].
  unfold bind, perform, Copy, bind, perform, ret.
  set (name := if IsDir fi then Join os dir path +:+ "/"
               else Join os dir path).
  destruct (fault os tr (ZipCreateHeader (mkZipHeader name Deflate)));
    [discriminate |].
  destruct (IsRegular fi) eqn:Hregular.
  - destruct (Open os path) as [| file] eqn:Hopen; [discriminate |].
    destruct (fault os _ (ZipWrite (contents file))); [discriminate |].
    destruct (readError file); [discriminate |].
    cbn [fst snd]. intros _.
    eexists. split; [now rewrite <- app_assoc |].
    exists fi, (contents file). rewrite Hregular.
    repeat split. now exists file.
  - destruct (if IsSymlink fi then Readlink os path else inr EmptyString)
      as [| data] eqn:Hlink; [discriminate |].
    destruct (fault os _ (ZipWrite data)); [discriminate |].
    cbn [fst snd]. intros _.
    eexists. split; [now rewrite <- app_assoc |].
    exists fi, data. rewrite Hregular. now repeat split.
Qed.





(** ** The archive builder: the whole archive *)

(** When the loop over the entries ends without error, every entry was
    added, one after the other. *)
Lemma addEntries_ok (add : string -> IO (option error)) (format : string)
    (R : string -> list Event -> Prop) :
  (forall entry tr, fst (add entry tr) = None ->
     exists m, snd (add entry tr) = tr ++ m /\ R entry m) ->
  forall entries tr,
    fst (addEntries add format entries tr) = None ->
    exists ms,
      snd (addEntries add format entries tr) = tr ++ concat ms /\
      Forall2 R entries ms.
Proof.
  intros Hadd entries. induction entries as [| entry entries IH]; intros tr.
  - intros _. exists []. split; [simpl; now rewrite app_nil_r | constructor].
  - cbn [addEntries]. unfold bind.
    pose proof (Hadd entry tr) as Hentry.
    destruct (add entry tr) as [[err |] tr1]; cbn [fst snd] in *;
      [discriminate |].
    destruct (Hentry eq_refl) as (m & -> & HR).
    intros Hrest. destruct (IH _ Hrest) as (ms & Heq & Hall).
    exists (m :: ms). split; [| now constructor].
    rewrite Heq. simpl. now rewrite app_assoc.
Qed.

(** When the loop ends with an error, this is the error of one entry,
    wrapped with the name of that entry. *)
Lemma addEntries_error (add : string -> IO (option error)) (format : string)
    (entries : list string) (tr : list Event) (err : error) :
  fst (addEntries add format entries tr) = Some err ->
  exists entry inner,
    entry ∈ entries /\ err = Errorf format [opString entry; opError inner].
Proof.
  revert tr. induction entries as [| entry entries IH]; intros tr;
    cbn [addEntries]; [discriminate |].
  unfold bind. destruct (add entry tr) as [[inner |] tr1].
  - cbn [ret fst]. intros Heq. injection Heq as <-.
    exists entry, inner. split; [apply list_elem_of_here | reflexivity].
  - intros Hrest. destruct (IH _ Hrest) as (e & inner & Hin & ->).
    exists e, inner. split; [now apply list_elem_of_further | reflexivity].
Qed.

(** After the entry that fails no entry is looked at. *)
Lemma addEntries_stops (add : string -> IO (option error)) (format : string)
    (a b : list string) (tr : list Event) (err : error) :
  fst (addEntries add format a tr) = Some err ->
  addEntries add format (a ++ b) tr = addEntries add format a tr.
Proof.
  revert tr. induction a as [| entry a IH]; intros tr; cbn [addEntries app];
    [discriminate |].
  unfold bind. destruct (add entry tr) as [[inner |] tr1];
    [reflexivity | apply IH].
Qed.

(** X18. When createTgzArchive returns nil, what it has done on the
    writers is, for each entry of the tree of the tag and then for each
    extra file, in that order, the operations of that entry, and after
    all of them the close of the tar writer and the close of the gzip
    writer. *)
Theorem createTgzArchive_writes_entries (os : OS) (ga : GitArchive)
    (extraFiles : list string) (tr : list Event) :
  fst (createTgzArchive os ga extraFiles tr) = None ->
  exists ms,
    snd (createTgzArchive os ga extraFiles tr) =
    tr ++ concat ms ++ [TarClose; GzipClose] /\
    Forall2 (tarEntry os (prefix ga)) (ListEntries (gd ga) ++ extraFiles) ms.
Proof.
  unfold createTgzArchive, bind.
  pose proof (addEntries_ok (addEntryToTar os (prefix ga))
                "while adding file %s to tar archive: %s"
                (tarEntry os (prefix ga)) (addEntryToTar_ok os (prefix ga))
                (ListEntries (gd ga) ++ extraFiles) tr) as Hloop.
  destruct (addEntries _ _ _ tr) as [result tr1].
  unfold perform, ret. cbn [fst snd] in *. intros ->.
  destruct (Hloop eq_refl) as (ms & -> & Hall).
  exists ms. split; [now rewrite <- !app_assoc | exact Hall].
Qed.

Lemma createTgzArchive_writes_entries_witness :
  exists ms,
    snd (createTgzArchive workdir release ["LICENSE"] []) =
    [] ++ concat ms ++ [TarClose; GzipClose] /\
    Forall2 (tarEntry workdir "proj-1.0")
            ["a.txt"; "dir"; "dir/b.txt"; "LICENSE"] ms.
Proof.
  apply (createTgzArchive_writes_entries workdir release ["LICENSE"] []).
  reflexivity.
Defined.

(** X19. When createZipArchive returns nil, what it has done on the
    writer is, for each entry of the tree of the tag and then for each
    extra file, in that order, the header and the one write of that
    entry, and after all of them the close of the zip writer. *)
Theorem createZipArchive_writes_entries (os : OS) (ga : GitArchive)
    (extraFiles : list string) (tr : list Event) :
  fst (createZipArchive os ga extraFiles tr) = None ->
  exists ms,
    snd (createZipArchive os ga extraFiles tr) =
    tr ++ concat ms ++ [ZipClose] /\
    Forall2 (zipEntry os (prefix ga)) (ListEntries (gd ga) ++ extraFiles) ms.
Proof.
  unfold createZipArchive, bind.
  pose proof (addEntries_ok (addEntryToZip os (prefix ga))
                "while adding file %s to zip archive: %s"
                (zipEntry os (prefix ga)) (addEntryToZip_ok os (prefix ga))
                (ListEntries (gd ga) ++ extraFiles) tr) as Hloop.
  destruct (addEntries _ _ _ tr) as [[err |] tr1]; cbn [fst snd] in *;
    [discriminate |].
  unfold perform. cbn [fst snd]. intros _.
  destruct (Hloop eq_refl) as (ms & -> & Hall).
  exists ms. split; [now rewrite <- !app_assoc | exact Hall].
Qed.

Lemma createZipArchive_writes_entries_witness :
  exists ms,
    snd (createZipArchive workdir release ["LICENSE"] []) =
    [] ++ concat ms ++ [ZipClose] /\
    Forall2 (zipEntry workdir "proj-1.0")
            ["a.txt"; "dir"; "dir/b.txt"; "LICENSE"] ms.
Proof.
  apply (createZipArchive_writes_entries workdir release ["LICENSE"] []).
  reflexivity.
Defined.

(** X20. On every path, with or without an error, createTgzArchive ends
    with the close of the tar writer followed by the close of the gzip
    writer, and what it does before them closes nothing. *)
Theorem createTgzArchive_always_closes (os : OS) (ga : GitArchive)
    (extraFiles : list string) (tr : list Event) :
  exists mid,
    snd (createTgzArchive os ga extraFiles tr) =
    tr ++ mid ++ [TarClose; GzipClose] /\
    Forall entryEvent mid.
Proof. apply createTgzArchive_closes. Qed.

(** X21. An error that createTgzArchive returns is the error of an
    entry of the tree or of an extra file, wrapped with the path of that
    entry: what the two closes return never reaches the caller. *)
Theorem createTgzArchive_error_names_entry (os : OS) (ga : GitArchive)
    (extraFiles : list string) (tr : list Event) (err : error) :
  fst (createTgzArchive os ga extraFiles tr) = Some err ->
  exists entry inner,
    entry ∈ ListEntries (gd ga) ++ extraFiles /\
    err = Errorf "while adding file %s to tar archive: %s"
                 [opString entry; opError inner].
Proof.
  unfold createTgzArchive, bind.
  pose proof (addEntries_error (addEntryToTar os (prefix ga))
                "while adding file %s to tar archive: %s"
                (ListEntries (gd ga) ++ extraFiles) tr err) as Hloop.
  destruct (addEntries _ _ _ tr) as [result tr1].
  unfold perform, ret. cbn [fst snd] in *. exact Hloop.
Qed.

Lemma createTgzArchive_error_names_entry_witness :
  exists entry inner,
    entry ∈ ListEntries (gd release) ++ ["missing"] /\
    Errorf "while adding file %s to tar archive: %s"
      [opString "missing";
       opError
         (Errorf "while getting information for file %s: %s"
            [opString "missing";
             opError (errorString
                        "stat missing: no such file or directory")])] =
    Errorf "while adding file %s to tar archive: %s"
      [opString entry; opError inner].
Proof.
  apply (createTgzArchive_error_names_entry workdir release ["missing"] []).
  reflexivity.
Defined.

(** X22. When createTgzArchive fails, extra files given after the ones
    it was given change nothing: the entry that fails is the last one
    looked at, and the result and the operations on the writers are the
    same. *)
Theorem createTgzArchive_stops_at_failure (os : OS) (ga : GitArchive)
    (a b : list string) (tr : list Event) (err : error) :
  fst (createTgzArchive os ga a tr) = Some err ->
  createTgzArchive os ga (a ++ b) tr = createTgzArchive os ga a tr.
Proof.
  unfold createTgzArchive, bind. intros Hfail.
  rewrite app_assoc.
  rewrite (addEntries_stops _ _ (ListEntries (gd ga) ++ a) b tr err);
    [reflexivity |].
  destruct (addEntries _ _ (ListEntries (gd ga) ++ a) tr) as [result tr1].
  exact Hfail.
Qed.

Lemma createTgzArchive_stops_at_failure_witness :
  createTgzArchive workdir release (["missing"] ++ ["LICENSE"]) [] =
  createTgzArchive workdir release ["missing"] [].
Proof.
  apply (createTgzArchive_stops_at_failure workdir release ["missing"]
           ["LICENSE"] []
           (Errorf "while adding file %s to tar archive: %s"
              [opString "missing";
               opError
                 (Errorf "while getting information for file %s: %s"
                    [opString "missing";
                     opError (errorString
                                "stat missing: no such file or directory")])])).
  reflexivity.
Defined.

(** X23. When the description has no tag, or a tag whose tree cannot be
    read, and no extra file is given, createTgzArchive does the two
    closes and returns nil, whatever the closes return; createZipArchive
    does the close and returns what the close returns. No error tells
    that the tree was not read. *)
Theorem create_without_entries (os : OS) (ga : GitArchive)
    (tr : list Event) :
  tag (gd ga) = None \/
  (exists t err, tag (gd ga) = Some t /\ object.Tree t = inl err) ->
  createTgzArchive os ga [] tr = (None, tr ++ [TarClose; GzipClose]) /\
  createZipArchive os ga [] tr = (fault os tr ZipClose, tr ++ [ZipClose]).
Proof.
  intros Hcase.
  assert (Hnone : ListEntries (gd ga) = []).
  { unfold ListEntries. destruct Hcase as [-> | (t & err & -> & ->)];
      reflexivity. }
  unfold createTgzArchive, createZipArchive. rewrite Hnone.
  unfold bind, perform, ret. cbn [addEntries app ret].
  now rewrite <- app_assoc.
Qed.

Lemma create_without_entries_witness :
  createTgzArchive brokenSink treeless [] [] = (None, [TarClose; GzipClose]) /\
  createZipArchive brokenSink treeless [] [] =
  (Some (errorString "broken pipe"), [ZipClose]).
Proof.
  apply (create_without_entries brokenSink treeless []).
  right. exists (object.mkTag "v1.2.3" 11%N (inl ErrObjectNotFound)).
  exists ErrObjectNotFound. split; reflexivity.
Defined.

(** X24. createZipArchive closes the zip writer last and returns what
    the close returns, unless an entry fails: then it returns the error
    of that entry, wrapped with its path, and the writer is not
    closed. *)
Theorem createZipArchive_closes_unless_entry_fails (os : OS)
    (ga : GitArchive) (extraFiles : list string) (tr : list Event) :
  exists mid,
    Forall entryEvent mid /\
    ((snd (createZipArchive os ga extraFiles tr) = tr ++ mid ++ [ZipClose] /\
      fst (createZipArchive os ga extraFiles tr) =
      fault os (tr ++ mid) ZipClose) \/
     (snd (createZipArchive os ga extraFiles tr) = tr ++ mid /\
      exists entry inner,
        entry ∈ ListEntries (gd ga) ++ extraFiles /\
        fst (createZipArchive os ga extraFiles tr) =
        Some (Errorf "while adding file %s to zip archive: %s"
                     [opString entry; opError inner]))).
Proof.
  unfold createZipArchive, bind.
  destruct (adds_addEntries (addEntryToZip os (prefix ga))
              "while adding file %s to zip archive: %s"
              (ListEntries (gd ga) ++ extraFiles)
              (adds_addEntryToZip os (prefix ga)) tr) as (mid & Heq & HP).
  pose proof (addEntries_error (addEntryToZip os (prefix ga))
                "while adding file %s to zip archive: %s"
                (ListEntries (gd ga) ++ extraFiles) tr) as Herr.
  destruct (addEntries _ _ _ tr) as [[err |] tr1]; cbn [fst snd] in *;
    subst tr1; exists mid; (split; [exact HP |]).
  - right. split; [reflexivity |].
    destruct (Herr err eq_refl) as (entry & inner & Hin & ->).
    now exists entry, inner.
  - left. unfold perform. cbn [fst snd]. now rewrite <- app_assoc.
Qed.

(** ** The package builder *)

Lemma formatString_lookup (format : Format) :
  formatString !! format =
  if format =? DEB then Some "deb"
  else if format =? RPM then Some "rpm" else None.
Proof.
  unfold formatString. cbn [list_to_map foldr uncurry fst snd].
  destruct (Z.eqb_spec format DEB) as [-> | Hdeb]; [reflexivity |].
  rewrite lookup_insert_ne by congruence.
  destruct (Z.eqb_spec format RPM) as [-> | Hrpm]; [reflexivity |].
  rewrite lookup_insert_ne by congruence. apply lookup_empty.
Qed.

(** X25. For a format that is neither DEB nor RPM, NewPackage returns
    the error "unsupported format" whatever the configuration, the
    version and the architecture are: the configuration is not read. *)
Theorem NewPackage_unsupported_format (lib : nfpm.Library)
    (configReader : string) (format : Format) (version arch : string) :
  format <> DEB -> format <> RPM ->
  NewPackage lib configReader format version arch =
  inl (Errorf "unsupported format" []).
Proof.
  intros Hdeb Hrpm. unfold NewPackage. rewrite formatString_lookup.
  destruct (Z.eqb_spec format DEB); [contradiction |].
  destruct (Z.eqb_spec format RPM); [contradiction | reflexivity].
Qed.

Lemma NewPackage_unsupported_format_witness :
  NewPackage plainLibrary "name: tool" 2 "1.2.3" "amd64" =
  inl (Errorf "unsupported format" []).
Proof.
  apply (NewPackage_unsupported_format plainLibrary "name: tool" 2 "1.2.3"
           "amd64");
    discriminate.
Defined.

(** An architecture that [formatArch] does not know has no row, and one
    that it has a row for is one of the eleven. *)
Lemma formatArch_unknown (arch : string) :
  arch ∉ knownArch -> formatArch !! arch = None.
Proof. intros Hnot. now apply not_elem_of_list_to_map_1. Qed.

Lemma formatArch_known (arch : string) (a : gmap Z string) :
  formatArch !! arch = Some a -> (arch, a) ∈ formatArchRows.
Proof. apply elem_of_list_to_map_2. Qed.

Lemma archName_empty (arch : string) (format : Format) :
  format = DEB \/ format = RPM ->
  archName arch format = EmptyString <->
  arch ∉ knownArch \/ (format = RPM /\ (arch = "arm5" \/ arch = "mipsle")).
Proof.
  intros Hformat. unfold archName.
  destruct (formatArch !! arch) as [a |] eqn:Hrow.
  - apply formatArch_known in Hrow.
    assert (Hin : arch ∈ knownArch).
    { change knownArch with (formatArchRows.*1).
      apply list_elem_of_fmap. now exists (arch, a). }
    unfold formatArchRows in Hrow.
    repeat (apply elem_of_cons in Hrow as [Hrow | Hrow];
            [injection Hrow as -> ->;
             destruct Hformat as [-> | ->];
             (split;
              [ intros Heq; vm_compute in Heq;
                first [ discriminate Heq
                      | right; split; [reflexivity | tauto] ]
              | intros [Hnot | (Hf & Ha)];
                first [ contradiction
                      | discriminate Hf
                      | reflexivity
                      | destruct Ha as [Ha | Ha]; discriminate Ha ] ]) |]).
    now apply elem_of_nil in Hrow.
  - split; [intros _ | reflexivity].
    left. intros Hin. unfold knownArch in Hin.
    repeat (apply elem_of_cons in Hin as [-> | Hin];
            [vm_compute in Hrow; discriminate Hrow |]).
    now apply elem_of_nil in Hin.
Qed.

(** NewPackage after the format is found and the configuration read. *)
Lemma NewPackage_read (lib : nfpm.Library) (configReader : string)
    (config : nfpm.Config) (format : Format) (version arch fmtStr : string) :
  formatString !! format = Some fmtStr ->
  nfpm.Parse lib configReader = inr config ->
  NewPackage lib configReader format version arch =
  match archName arch format with
  | EmptyString => inl (Errorf "unsupported architecture" [])
  | _ =>
      match getPackageInfo lib (withArch config (archName arch format))
              format version with
      | inl err =>
          inl (Errorf "while getting package information: %s" [opError err])
      | inr info =>
          match nfpm.Get lib fmtStr with
          | inl err => inl (Errorf "while getting packager: %s" [opError err])
          | inr packager => inr (mkPackage packager info)
          end
      end
  end.
Proof.
  intros Hformat Hparse. unfold NewPackage, archName.
  rewrite Hformat, Hparse.
  destruct (formatArch !! arch) as [a |]; reflexivity.
Qed.

(** X26. For DEB and RPM and a configuration that is read, NewPackage
    returns the error "unsupported architecture" exactly when the
    architecture is none of the eleven of the table, or the format is
    RPM and the architecture is arm5 or mipsle, for which the table has
    no RPM name. *)
Theorem NewPackage_unsupported_architecture (lib : nfpm.Library)
    (configReader : string) (config : nfpm.Config) (format : Format)
    (version arch : string) :
  format = DEB \/ format = RPM ->
  nfpm.Parse lib configReader = inr config ->
  NewPackage lib configReader format version arch =
    inl (Errorf "unsupported architecture" []) <->
  arch ∉ knownArch \/ (format = RPM /\ (arch = "arm5" \/ arch = "mipsle")).
Proof.
  intros Hformat Hparse.
  rewrite <- (archName_empty arch format Hformat).
  assert (Hstr : exists fmtStr, formatString !! format = Some fmtStr).
  { destruct Hformat as [-> | ->]; eexists; reflexivity. }
  destruct Hstr as [fmtStr Hstr].
  rewrite (NewPackage_read lib configReader config format version arch
             fmtStr Hstr Hparse).
  destruct (archName arch format) as [| c name]; [tauto |].
  split; [| discriminate].
  destruct (getPackageInfo lib _ format version); [discriminate |].
  destruct (nfpm.Get lib fmtStr); discriminate.
Qed.

Lemma NewPackage_unsupported_architecture_witness :
  NewPackage plainLibrary "name: tool" RPM "1.2.3" "mipsle" =
    inl (Errorf "unsupported architecture" []) <->
  "mipsle" ∉ knownArch \/
  (RPM = RPM /\ ("mipsle" = "arm5" \/ "mipsle" = "mipsle")).
Proof.
  apply (NewPackage_unsupported_architecture plainLibrary "name: tool"
           (nfpm.mkConfig
              (nfpm.mkInfo "tool" "anything" "0.0.0" "1" EmptyString)
              "name: tool") RPM "1.2.3" "mipsle");
    [right; reflexivity | reflexivity].
Defined.

(** X27. The package that NewPackage returns is named after its own
    name, version, release and architecture:
    [name_version-release_arch.deb] for DEB and
    [name-version-release.arch.rpm] for RPM. *)
Theorem NewPackage_target (lib : nfpm.Library) (configReader : string)
    (format : Format) (version arch : string) (p : Package) :
  NewPackage lib configReader format version arch = inr p ->
  (format = DEB \/ format = RPM) /\
  nfpm.Target (Info p) = targetName format (Info p).
Proof.
  unfold NewPackage. rewrite formatString_lookup.
  destruct (Z.eqb_spec format DEB) as [-> | Hdeb].
  - destruct (nfpm.Parse lib configReader) as [| config]; [discriminate |].
    match goal with
    | |- context [nfpm.Arch (nfpm.Inline ?c)] =>
        destruct (nfpm.Arch (nfpm.Inline c)); [discriminate |];
        generalize c; intros c'
    end.
    unfold getPackageInfo. cbn [Z.eqb DEB].
    destruct (nfpm.ConfigGet lib _ _) as [| info]; [discriminate |].
    destruct (nfpm.Validate lib _); [discriminate |].
    destruct (nfpm.Get lib "deb"); [discriminate |].
    intros Heq. injection Heq as <-. split; [now left | reflexivity].
  - destruct (Z.eqb_spec format RPM) as [-> | Hrpm]; [| discriminate].
    destruct (nfpm.Parse lib configReader) as [| config]; [discriminate |].
    match goal with
    | |- context [nfpm.Arch (nfpm.Inline ?c)] =>
        destruct (nfpm.Arch (nfpm.Inline c)); [discriminate |];
        generalize c; intros c'
    end.
    unfold getPackageInfo.
    change (RPM =? DEB) with false. change (RPM =? RPM) with true.
    cbv iota.
    destruct (nfpm.ConfigGet lib _ _) as [| info]; [discriminate |].
    destruct (nfpm.Validate lib _); [discriminate |].
    destruct (nfpm.Get lib "rpm"); [discriminate |].
    intros Heq. injection Heq as <-. split; [now right | reflexivity].
Qed.

Lemma NewPackage_target_witness :
  (DEB = DEB \/ DEB = RPM) /\
  "tool_1.2.3-1_ppc64el.deb" =
  targetName DEB
    (nfpm.mkInfo "tool" "ppc64el" "1.2.3" "1" "tool_1.2.3-1_ppc64el.deb").
Proof.
  apply (NewPackage_target plainLibrary "name: tool" DEB "1.2.3" "ppc64le"
           (mkPackage (fun i => None)
              (nfpm.mkInfo "tool" "ppc64el" "1.2.3" "1"
                 "tool_1.2.3-1_ppc64el.deb"))).
  reflexivity.
Defined.
